(** * Excalibur: collision contact resolution

    A shallow embedding of [src/engine/Collision/CollisionContact.ts].

    JavaScript numbers are idealised as real numbers: rounding, infinities
    and NaN are outside this development.  Objects compared by identity
    ([Body], [Collider]) live in a store and are named by references;
    a [Vector] is a value. *)

From Stdlib Require Import Reals Lra List Bool Arith String.
Import ListNotations.

Local Open Scope R_scope.

(** ** Decisions on numbers *)

Definition Rltb (x y : R) : bool := if Rlt_dec x y then true else false.
Definition Rleb (x y : R) : bool := if Rle_dec x y then true else false.
Definition Rgtb (x y : R) : bool := if Rgt_dec x y then true else false.

(** A JavaScript number used as a condition holds when it is not zero. *)
Definition truthy (x : R) : bool := if Req_dec_T x 0 then false else true.

(** ** Vectors

    Modelled from the spec: the [Vector] class of [../Algebra] is not among
    the sources.  The spec lists it as 2D vector arithmetic with dot and
    cross products and normalisation; every operation returns a new vector.
    The direction of the zero vector, which the spec leaves open, is taken
    to be the unit vector (0, 1). *)

Record Vector : Type := mkVector { x : R; y : R }.

Module Vec.

Definition add (u v : Vector) : Vector := mkVector (x u + x v) (y u + y v).
Definition sub (u v : Vector) : Vector := mkVector (x u - x v) (y u - y v).
Definition scale (u : Vector) (size : R) : Vector :=
  mkVector (x u * size) (y u * size).
Definition negate (u : Vector) : Vector := scale u (-1).
Definition dot (u v : Vector) : R := x u * x v + y u * y v.

(** [cross] is overloaded in the source: vector by vector gives a number,
    vector by number gives a vector. *)
Definition cross (u v : Vector) : R := x u * y v - y u * x v.
Definition crossS (u : Vector) (s : R) : Vector :=
  mkVector (s * y u) (- s * x u).

Definition distance (u : Vector) : R := sqrt (x u * x u + y u * y u).

Definition normalize (u : Vector) : Vector :=
  let d := distance u in
  if Rgtb d 0 then mkVector (x u / d) (y u / d) else mkVector 0 1.

Definition perpendicular (u : Vector) : Vector := mkVector (y u) (- x u).
Definition normal (u : Vector) : Vector := normalize (perpendicular u).

Definition Zero : Vector := mkVector 0 0.

End Vec.

(** ** Data model *)

(** Modelled from the spec: the enumeration of [./CollisionType] is not
    among the sources; the spec gives the kinematic classes Active, Passive
    and Fixed, which are the ones the resolution code tests. *)
Inductive CollisionType : Type := Passive | Active | Fixed.

Definition CollisionType_eqb (a b : CollisionType) : bool :=
  match a, b with
  | Passive, Passive | Active, Active | Fixed, Fixed => true
  | _, _ => false
  end.

(** Objects compared by identity are named by their address in the store. *)
Definition BodyRef : Type := nat.
Definition ColliderRef : Type := nat.

(** Modelled from the spec: [./Body] is not among the sources.  The fields
    are the ones the resolution code reads and writes, together with the
    correction vector that [addMtv] accumulates. *)
Record Body : Type := mkBody {
  pos : Vector;
  vel : Vector;
  rx : R;
  collisionType : CollisionType;
  totalMtv : Vector;
  collider : ColliderRef
}.

(** Modelled from the spec: [./Collider] is not among the sources.  The
    fields are the ones the resolution code reads; none of them is written
    during a resolution. *)
Record Collider : Type := mkCollider {
  body : BodyRef;
  mass : R;
  moi : R;
  restitution : R;
  friction : R;
  center : Vector
}.

Record CollisionContact : Type := mkCollisionContact {
  id : string;
  colliderA : ColliderRef;
  colliderB : ColliderRef;
  mtv : Vector;
  point : Vector;
  normal : Vector
}.

(** Modelled from the spec: the side enumeration and the two helpers of
    [../Util/Util] are not among the sources.  The side is the one of the
    dominant axis of the vector, the first of Left, Right, Top, Bottom on a
    tie; it only travels in event payloads. *)
Inductive Side : Type := Side_None | Side_Top | Side_Bottom | Side_Left | Side_Right.

Definition getSideFromVector (direction : Vector) : Side :=
  let pick (best : R * Side) (cand : Vector * Side) : R * Side :=
    if Rgtb (Vec.dot (fst cand) direction) (fst best)
    then (Vec.dot (fst cand) direction, snd cand) else best in
  snd (fold_left pick
         [ (mkVector 1 0, Side_Right);
           (mkVector 0 (-1), Side_Top);
           (mkVector 0 1, Side_Bottom) ]
         (Vec.dot (mkVector (-1) 0) direction, Side_Left)).

Definition getOppositeSide (s : Side) : Side :=
  match s with
  | Side_Top => Side_Bottom
  | Side_Bottom => Side_Top
  | Side_Left => Side_Right
  | Side_Right => Side_Left
  | Side_None => Side_None
  end.

(** Modelled from the spec: the event classes of [../Events] are not among
    the sources; a payload is (self, other, side, vector). *)
Inductive EventName : Type := precollision | postcollision.

Record CollisionEvent : Type := mkCollisionEvent {
  actor : ColliderRef;
  other : ColliderRef;
  side : Side;
  intersection : Vector
}.

Definition PreCollisionEvent := mkCollisionEvent.
Definition PostCollisionEvent := mkCollisionEvent.

(** One call of [emit]: the collider it is called on, the event name and
    the payload. *)
Record Emitted : Type := mkEmitted {
  target : ColliderRef;
  name : EventName;
  payload : CollisionEvent
}.

(** Modelled from the spec: the enumeration of [../Physics] is not among
    the sources.  A TypeScript enumeration is a number at run time, so a
    strategy is a number of which two values are named. *)
Module CollisionResolutionStrategy.
Definition t : Type := nat.
Definition Box : t := 0%nat.
Definition RigidBody : t := 1%nat.
End CollisionResolutionStrategy.

(** The part of the heap a resolution can reach: the bodies, the colliders,
    the channel of emitted events (oldest first), the rotation switch of
    [Physics] and the contact the method is called on. *)
Record World : Type := mkWorld {
  bodies : BodyRef -> Body;
  colliders : ColliderRef -> Collider;
  emitted : list Emitted;
  allowRigidBodyRotation : bool;
  this : CollisionContact
}.

(** ** Writes to the store *)

Definition updBody (b : BodyRef) (f : Body -> Body) (w : World) : World :=
  mkWorld (fun r => if Nat.eqb r b then f (bodies w r) else bodies w r)
          (colliders w) (emitted w) (allowRigidBodyRotation w) (this w).

Definition set_vel (b : BodyRef) (v : Vector) : World -> World :=
  updBody b (fun o => mkBody (pos o) v (rx o) (collisionType o) (totalMtv o) (collider o)).

Definition set_rx (b : BodyRef) (r : R) : World -> World :=
  updBody b (fun o => mkBody (pos o) (vel o) r (collisionType o) (totalMtv o) (collider o)).

(** A position is written as a value here.  The source writes the
    existing [Vector] object in place (lines 65-66); what that does to
    another holder of the same object is the matter of [Shared] below. *)
Definition set_pos (b : BodyRef) (p : Vector) : World -> World :=
  updBody b (fun o => mkBody p (vel o) (rx o) (collisionType o) (totalMtv o) (collider o)).

(** Modelled from the spec: [Body.addMtv] adds to the correction the body
    has accumulated; it does not overwrite it. *)
Definition addMtv (b : BodyRef) (m : Vector) : World -> World :=
  updBody b (fun o => mkBody (pos o) (vel o) (rx o) (collisionType o)
                             (Vec.add (totalMtv o) m) (collider o)).

Definition emit (c : ColliderRef) (n : EventName) (e : CollisionEvent)
    (w : World) : World :=
  mkWorld (bodies w) (colliders w) (emitted w ++ [mkEmitted c n e])
          (allowRigidBodyRotation w) (this w).

(** ** The Box strategy *)

(** [_applyBoxImpulse], lines 57-80.  The position is written one
    coordinate at a time in the source; the velocity is read from the body
    after that write. *)
Definition _applyBoxImpulse (bodyA bodyB : BodyRef) (mtv : Vector)
    (w : World) : World :=
  if CollisionType_eqb (collisionType (bodies w bodyA)) Active
     && negb (CollisionType_eqb (collisionType (bodies w bodyB)) Passive)
  then
    let mtv :=
      if CollisionType_eqb (collisionType (bodies w bodyA)) Active
         && CollisionType_eqb (collisionType (bodies w bodyB)) Active
      then Vec.scale mtv 0.5 else mtv in
    let w1 := set_pos bodyA (mkVector (x (pos (bodies w bodyA)))
                                      (y (pos (bodies w bodyA)) + y mtv)) w in
    let w2 := set_pos bodyA (mkVector (x (pos (bodies w1 bodyA)) + x mtv)
                                      (y (pos (bodies w1 bodyA)))) w1 in
    let mtvDir := Vec.normalize mtv in
    let w3 :=
      if Rltb (Vec.dot mtvDir (vel (bodies w2 bodyA))) 0 then
        let velAdj :=
          Vec.scale mtvDir (Vec.dot mtvDir (Vec.negate (vel (bodies w2 bodyA)))) in
        set_vel bodyA (Vec.add (vel (bodies w2 bodyA)) velAdj) w2
      else w2 in
    emit (collider (bodies w3 bodyA)) postcollision
         (PostCollisionEvent (collider (bodies w3 bodyA))
                             (collider (bodies w3 bodyB))
                             (getSideFromVector mtv) mtv) w3
  else w.

(** [_resolveBoxCollision], lines 82-93. *)
Definition _resolveBoxCollision (w : World) : World :=
  let bodyA := body (colliders w (colliderA (this w))) in
  let bodyB := body (colliders w (colliderB (this w))) in
  let side := getSideFromVector (mtv (this w)) in
  let mtv := Vec.negate (mtv (this w)) in
  let w1 := emit (colliderA (this w)) precollision
              (PreCollisionEvent (collider (bodies w bodyA))
                                 (collider (bodies w bodyB)) side mtv) w in
  let w2 := emit (colliderB (this w1)) precollision
              (PreCollisionEvent (collider (bodies w1 bodyB))
                                 (collider (bodies w1 bodyA))
                                 (getOppositeSide side) (Vec.negate mtv)) w1 in
  let w3 := _applyBoxImpulse bodyA bodyB mtv w2 in
  _applyBoxImpulse bodyB bodyA (Vec.negate mtv) w3.

(** ** The RigidBody strategy *)

(** The local variables of [_resolveRigidBodyCollision], each under the
    name it has in the source.  All of them are computed from the state the
    method is entered in (lines 97-156 and 190-200). *)
Module Rigid.
Section Locals.
Variable w : World.

Definition bodyA : BodyRef := body (colliders w (colliderA (this w))).
Definition bodyB : BodyRef := body (colliders w (colliderB (this w))).

Definition side : Side := getSideFromVector (mtv (this w)).

Definition invMassA : R :=
  if CollisionType_eqb (collisionType (bodies w bodyA)) Fixed then 0
  else 1 / mass (colliders w (collider (bodies w bodyA))).
Definition invMassB : R :=
  if CollisionType_eqb (collisionType (bodies w bodyB)) Fixed then 0
  else 1 / mass (colliders w (collider (bodies w bodyB))).

Definition invMoiA : R :=
  if CollisionType_eqb (collisionType (bodies w bodyA)) Fixed then 0
  else 1 / moi (colliders w (collider (bodies w bodyA))).
Definition invMoiB : R :=
  if CollisionType_eqb (collisionType (bodies w bodyB)) Fixed then 0
  else 1 / moi (colliders w (collider (bodies w bodyB))).

Definition coefRestitution : R :=
  Rmin (restitution (colliders w (collider (bodies w bodyA))))
       (restitution (colliders w (collider (bodies w bodyB)))).

Definition coefFriction : R :=
  Rmin (friction (colliders w (collider (bodies w bodyA))))
       (friction (colliders w (collider (bodies w bodyB)))).

(** [normal = normal.normalize()] *)
Definition normal : Vector := Vec.normalize (normal (this w)).
Definition tangent : Vector := Vec.normalize (Vec.normal normal).

Definition ra : Vector :=
  Vec.sub (point (this w)) (center (colliders w (colliderA (this w)))).
Definition rb : Vector :=
  Vec.sub (point (this w)) (center (colliders w (colliderB (this w)))).

Definition rv : Vector :=
  Vec.sub (Vec.add (vel (bodies w bodyB)) (Vec.crossS rb (- rx (bodies w bodyB))))
          (Vec.sub (vel (bodies w bodyA)) (Vec.crossS ra (rx (bodies w bodyA)))).
Definition rvNormal : R := Vec.dot rv normal.
Definition rvTangent : R := Vec.dot rv tangent.

Definition raTangent : R := Vec.dot ra tangent.
Definition raNormal : R := Vec.dot ra normal.

Definition rbTangent : R := Vec.dot rb tangent.
Definition rbNormal : R := Vec.dot rb normal.

(** Lines 155-156.  The division is the one of the real numbers; it is
    the division of the source only where the denominator is not zero (two
    Fixed bodies make it zero, and the source then carries NaN or Infinity
    on).  Statements on the value of [impulse] are made where the
    denominator is not zero. *)
Definition impulse : R :=
  - ((1 + coefRestitution) * rvNormal)
  / (invMassA + invMassB + invMoiA * raTangent * raTangent
     + invMoiB * rbTangent * rbTangent).

Definition t : Vector :=
  Vec.normalize (Vec.sub rv (Vec.scale normal (Vec.dot rv normal))).

(** Line 193, with the same proviso on its denominator. *)
Definition jt : R :=
  Vec.dot rv t
  / (invMassA + invMassB + raNormal * raNormal * invMoiA
     + rbNormal * rbNormal * invMoiB).

Definition frictionImpulse : Vector :=
  if Rleb (Rabs jt) (impulse * coefFriction)
  then Vec.negate (Vec.scale t jt)
  else Vec.scale t (- impulse * coefFriction).

End Locals.
End Rigid.

(** Compound assignments on a body of the store: the right-hand side is
    added to what the field holds at that moment. *)
Definition vel_add (b : BodyRef) (v : Vector) (w : World) : World :=
  set_vel b (Vec.add (vel (bodies w b)) v) w.
Definition vel_sub (b : BodyRef) (v : Vector) (w : World) : World :=
  set_vel b (Vec.sub (vel (bodies w b)) v) w.
Definition rx_add (b : BodyRef) (r : R) (w : World) : World :=
  set_rx b (rx (bodies w b) + r) w.
Definition rx_sub (b : BodyRef) (r : R) (w : World) : World :=
  set_rx b (rx (bodies w b) - r) w.

(** [if (Physics.allowRigidBodyRotation) { ... }] *)
Definition whenRotation (f : World -> World) (w : World) : World :=
  if allowRigidBodyRotation w then f w else w.

(** Lines 158-182: the impulse along the normal and the share of the
    correction vector, by the three cases A fixed, B fixed, neither.
    [w0] is the state the method was entered in, which the local variables
    were computed from. *)
Definition applyNormalImpulse (w0 w : World) : World :=
  let bodyA := Rigid.bodyA w0 in
  let bodyB := Rigid.bodyB w0 in
  let mtv := mtv (this w0) in
  let normal := Rigid.normal w0 in
  let impulse := Rigid.impulse w0 in
  if CollisionType_eqb (collisionType (bodies w bodyA)) Fixed then
    let w := vel_add bodyB (Vec.scale normal (impulse * Rigid.invMassB w0)) w in
    let w := whenRotation
      (rx_sub bodyB (impulse * Rigid.invMoiB w0 * - Vec.cross (Rigid.rb w0) normal)) w in
    addMtv bodyB mtv w
  else if CollisionType_eqb (collisionType (bodies w bodyB)) Fixed then
    let w := vel_sub bodyA (Vec.scale normal (impulse * Rigid.invMassA w0)) w in
    let w := whenRotation
      (rx_add bodyA (impulse * Rigid.invMoiA w0 * - Vec.cross (Rigid.ra w0) normal)) w in
    addMtv bodyA (Vec.negate mtv) w
  else
    let w := vel_add bodyB (Vec.scale normal (impulse * Rigid.invMassB w0)) w in
    let w := vel_sub bodyA (Vec.scale normal (impulse * Rigid.invMassA w0)) w in
    let w := whenRotation (fun w =>
      let w := rx_sub bodyB
                 (impulse * Rigid.invMoiB w0 * - Vec.cross (Rigid.rb w0) normal) w in
      rx_add bodyA
        (impulse * Rigid.invMoiA w0 * - Vec.cross (Rigid.ra w0) normal) w) w in
    let w := addMtv bodyB (Vec.scale mtv 0.5) w in
    addMtv bodyA (Vec.scale mtv (-0.5)) w.

(** Lines 202-224: the friction impulse, by the same three cases. *)
Definition applyFrictionImpulse (w0 w : World) : World :=
  let bodyA := Rigid.bodyA w0 in
  let bodyB := Rigid.bodyB w0 in
  let t := Rigid.t w0 in
  let frictionImpulse := Rigid.frictionImpulse w0 in
  if CollisionType_eqb (collisionType (bodies w bodyA)) Fixed then
    let w := vel_add bodyB (Vec.scale frictionImpulse (Rigid.invMassB w0)) w in
    whenRotation
      (rx_add bodyB (Vec.dot frictionImpulse t * Rigid.invMoiB w0
                     * Vec.cross (Rigid.rb w0) t)) w
  else if CollisionType_eqb (collisionType (bodies w bodyB)) Fixed then
    let w := vel_sub bodyA (Vec.scale frictionImpulse (Rigid.invMassA w0)) w in
    whenRotation
      (rx_sub bodyA (Vec.dot frictionImpulse t * Rigid.invMoiA w0
                     * Vec.cross (Rigid.ra w0) t)) w
  else
    let w := vel_add bodyB (Vec.scale frictionImpulse (Rigid.invMassB w0)) w in
    let w := vel_sub bodyA (Vec.scale frictionImpulse (Rigid.invMassA w0)) w in
    whenRotation (fun w =>
      let w := rx_add bodyB (Vec.dot frictionImpulse t * Rigid.invMoiB w0
                             * Vec.cross (Rigid.rb w0) t) w in
      rx_sub bodyA (Vec.dot frictionImpulse t * Rigid.invMoiA w0
                    * Vec.cross (Rigid.ra w0) t) w) w.

(** [_resolveRigidBodyCollision], lines 95-232.  Each [return] of the
    source is the branch that answers with the state reached so far. *)
Definition _resolveRigidBodyCollision (w0 : World) : World :=
  let bodyA := Rigid.bodyA w0 in
  let bodyB := Rigid.bodyB w0 in
  if Nat.eqb bodyA bodyB then w0
  else
    let side := Rigid.side w0 in
    let w := emit (colliderA (this w0)) precollision
               (PreCollisionEvent (colliderA (this w0)) (colliderB (this w0))
                                  side (mtv (this w0))) w0 in
    let w := emit (colliderB (this w0)) precollision
               (PreCollisionEvent (colliderB (this w0)) (colliderA (this w0))
                                  (getOppositeSide side)
                                  (Vec.negate (mtv (this w0)))) w in
    if CollisionType_eqb (collisionType (bodies w bodyA)) Passive
       || CollisionType_eqb (collisionType (bodies w bodyB)) Passive
    then w
    else if Rgtb (Rigid.rvNormal w0) 0 then w
    else
      let w := applyNormalImpulse w0 w in
      let w :=
        if truthy (Rigid.coefFriction w0) && truthy (Rigid.rvTangent w0)
        then applyFrictionImpulse w0 w else w in
      let w := emit (colliderA (this w0)) postcollision
                 (PostCollisionEvent (colliderA (this w0)) (colliderB (this w0))
                                     side (mtv (this w0))) w in
      emit (colliderB (this w0)) postcollision
        (PostCollisionEvent (colliderB (this w0)) (colliderA (this w0))
                            (getOppositeSide side)
                            (Vec.negate (mtv (this w0)))) w.

(** ** [resolve] *)

(** How a call ends: it returns, or it throws; either way the store is
    left in some state. *)
Inductive Outcome : Type :=
| Returned (w : World)
| Thrown (message : string) (w : World).

Definition finalWorld (o : Outcome) : World :=
  match o with Returned w | Thrown _ w => w end.

(** [resolve], lines 47-55. *)
Definition resolve (strategy : CollisionResolutionStrategy.t) (w : World)
    : Outcome :=
  if Nat.eqb strategy CollisionResolutionStrategy.RigidBody then
    Returned (_resolveRigidBodyCollision w)
  else if Nat.eqb strategy CollisionResolutionStrategy.Box then
    Returned (_resolveBoxCollision w)
  else Thrown "Unknown collision resolution strategy" w.

(** ** Observations *)

(** No body of the store differs between the two states. *)
Definition sameBodies (w w' : World) : Prop :=
  forall r : BodyRef, bodies w' r = bodies w r.

(** The events emitted between the state [w] and the later state [w']. *)
Definition emittedSince (w w' : World) (l : list Emitted) : Prop :=
  emitted w' = emitted w ++ l.

(** Some event named [n] is among the calls [l], emitted on the collider [c]. *)
Definition fired (n : EventName) (c : ColliderRef) (l : list Emitted) : Prop :=
  exists e, In (mkEmitted c n e) l.

(** The first two events of a RigidBody resolution (lines 107-112). *)
Definition rigidPreEvents (w : World) : list Emitted :=
  [ mkEmitted (colliderA (this w)) precollision
      (PreCollisionEvent (colliderA (this w)) (colliderB (this w))
         (Rigid.side w) (mtv (this w)));
    mkEmitted (colliderB (this w)) precollision
      (PreCollisionEvent (colliderB (this w)) (colliderA (this w))
         (getOppositeSide (Rigid.side w)) (Vec.negate (mtv (this w)))) ].

(** The last two events of a RigidBody resolution (lines 227-231). *)
Definition rigidPostEvents (w : World) : list Emitted :=
  [ mkEmitted (colliderA (this w)) postcollision
      (PostCollisionEvent (colliderA (this w)) (colliderB (this w))
         (Rigid.side w) (mtv (this w)));
    mkEmitted (colliderB (this w)) postcollision
      (PostCollisionEvent (colliderB (this w)) (colliderA (this w))
         (getOppositeSide (Rigid.side w)) (Vec.negate (mtv (this w)))) ].

(** The sentence of the spec on Passive pairs, as it is written: nothing
    moves, and the pre-collision and the post-collision events reach both
    participants. *)
Definition passivePairAsWritten (w : World) : Prop :=
  collisionType (bodies w (Rigid.bodyA w)) = Passive
  \/ collisionType (bodies w (Rigid.bodyB w)) = Passive ->
  exists w' l,
    resolve CollisionResolutionStrategy.RigidBody w = Returned w'
    /\ sameBodies w w'
    /\ emittedSince w w' l
    /\ fired precollision (colliderA (this w)) l
    /\ fired precollision (colliderB (this w)) l
    /\ fired postcollision (colliderA (this w)) l
    /\ fired postcollision (colliderB (this w)) l.

(** ** Readings of the Box strategy *)

(** The first two events of a Box resolution (lines 88-89). *)
Definition boxPreEvents (w : World) : list Emitted :=
  [ mkEmitted (colliderA (this w)) precollision
      (PreCollisionEvent (collider (bodies w (Rigid.bodyA w)))
         (collider (bodies w (Rigid.bodyB w)))
         (getSideFromVector (mtv (this w))) (Vec.negate (mtv (this w))));
    mkEmitted (colliderB (this w)) precollision
      (PreCollisionEvent (collider (bodies w (Rigid.bodyB w)))
         (collider (bodies w (Rigid.bodyA w)))
         (getOppositeSide (getSideFromVector (mtv (this w))))
         (Vec.negate (Vec.negate (mtv (this w))))) ].

(** A body receives the positional impulse when it is Active and the other
    body is not Passive (line 58). *)
Definition receives (w : World) (bodyA bodyB : BodyRef) : bool :=
  CollisionType_eqb (collisionType (bodies w bodyA)) Active
  && negb (CollisionType_eqb (collisionType (bodies w bodyB)) Passive).

(** The translation a receiving body is given: half of the vector when both
    bodies are Active (lines 60-63). *)
Definition splitMtv (w : World) (bodyA bodyB : BodyRef) (mtv : Vector) : Vector :=
  if CollisionType_eqb (collisionType (bodies w bodyA)) Active
     && CollisionType_eqb (collisionType (bodies w bodyB)) Active
  then Vec.scale mtv 0.5 else mtv.

(** The velocity a receiving body is left with (lines 68-76). *)
Definition cancelOpposing (mtvDir v : Vector) : Vector :=
  if Rltb (Vec.dot mtvDir v) 0
  then Vec.add v (Vec.scale mtvDir (Vec.dot mtvDir (Vec.negate v)))
  else v.

(** The body a positional impulse with the vector [m] leaves behind
    (lines 64-76): moved by [m], the opposing velocity cancelled. *)
Definition pushed (o : Body) (m : Vector) : Body :=
  mkBody (mkVector (x (pos o) + x m) (y (pos o) + y m))
         (cancelOpposing (Vec.normalize m) (vel o))
         (rx o) (collisionType o) (totalMtv o) (collider o).

(** How far a body has moved between two states. *)
Definition displacement (w w' : World) (b : BodyRef) : Vector :=
  Vec.sub (pos (bodies w' b)) (pos (bodies w b)).

(** ** Readings of the RigidBody strategy *)

(** The state once the two pre-collision events are out (line 112). *)
Definition afterPreEvents (w : World) : World :=
  mkWorld (bodies w) (colliders w) (emitted w ++ rigidPreEvents w)
          (allowRigidBodyRotation w) (this w).

(** Whether the friction step is entered (line 185). *)
Definition frictionStep (w : World) : bool :=
  truthy (Rigid.coefFriction w) && truthy (Rigid.rvTangent w).

(** The state once the impulses are applied (line 225). *)
Definition afterImpulses (w : World) : World :=
  let w3 := applyNormalImpulse w (afterPreEvents w) in
  if frictionStep w then applyFrictionImpulse w w3 else w3.

(** The sentence of the spec on a Fixed body paired with an Active one, as
    it is written: the Fixed body is left as it was and the other body's
    accumulated correction grows by the whole MTV, in one direction or the
    other. *)
Definition fixedPairAsWritten (w : World) : Prop :=
  forall fixed moving : BodyRef,
    (fixed = Rigid.bodyA w /\ moving = Rigid.bodyB w)
    \/ (fixed = Rigid.bodyB w /\ moving = Rigid.bodyA w) ->
    collisionType (bodies w fixed) = Fixed ->
    collisionType (bodies w moving) = Active ->
    exists w',
      resolve CollisionResolutionStrategy.RigidBody w = Returned w'
      /\ bodies w' fixed = bodies w fixed
      /\ (Vec.sub (totalMtv (bodies w' moving)) (totalMtv (bodies w moving))
          = mtv (this w)
          \/ Vec.sub (totalMtv (bodies w' moving)) (totalMtv (bodies w moving))
             = Vec.negate (mtv (this w))).

(** ** The impulse, in the words of the spec *)

(** The inverse of a mass or of a moment of inertia: 0 for a Fixed body,
    the reciprocal otherwise. *)
Definition specInverse (ct : CollisionType) (m : R) : R :=
  match ct with
  | Fixed => 0
  | _ => / m
  end.

(** [impulse = -(1 + restitution) * rvNormal /
      (invMassA + invMassB + invMoiA*raTangent² + invMoiB*rbTangent²)] *)
Definition specImpulse
    (restitution rvNormal invMassA invMassB invMoiA invMoiB raTangent rbTangent : R)
    : R :=
  - (1 + restitution) * rvNormal
  / (invMassA + invMassB + invMoiA * raTangent ^ 2 + invMoiB * rbTangent ^ 2).

(** ** Frames

    [keeps p f] says that the observation [p] of the state is the same
    before and after [f]. *)

Definition keeps {A : Type} (p : World -> A) (f : World -> World) : Prop :=
  forall w, p (f w) = p w.

(** The observations that no write of a body disturbs. *)
Definition bodyBlind {A : Type} (p : World -> A) : Prop :=
  forall b f w, p (updBody b f w) = p w.

(** The observations that a write of one field does not disturb. *)
Definition velBlind {A : Type} (p : World -> A) : Prop :=
  forall b v w, p (set_vel b v w) = p w.
Definition rxBlind {A : Type} (p : World -> A) : Prop :=
  forall b r w, p (set_rx b r w) = p w.
Definition mtvBlind {A : Type} (p : World -> A) : Prop :=
  forall b m w, p (addMtv b m w) = p w.

(** ** Sample states *)

Module Sample.

Definition collider0 (b : BodyRef) (fr : R) : Collider :=
  mkCollider b 1 1 0 fr Vec.Zero.

Definition resting (ct : CollisionType) (v : Vector) (c : ColliderRef) : Body :=
  mkBody Vec.Zero v 0 ct Vec.Zero c.

Definition contactOf (a b : ColliderRef) : CollisionContact :=
  mkCollisionContact "contact" a b (mkVector 2 0) Vec.Zero (mkVector 1 0).

(** Two colliders, 0 and 1, on two bodies, 0 and 1. *)
Definition pair (ctA ctB : CollisionType) (vA vB : Vector) (fr : R) : World :=
  mkWorld (fun r => if Nat.eqb r 0 then resting ctA vA 0%nat
                    else resting ctB vB 1%nat)
          (fun c => if Nat.eqb c 0 then collider0 0%nat fr
                    else collider0 1%nat fr)
          [] false (contactOf 0%nat 1%nat).

(** The same pair with [Physics.allowRigidBodyRotation] switched on. *)
Definition spinningPair (ctA ctB : CollisionType) (vA vB : Vector) (fr : R) : World :=
  mkWorld (bodies (pair ctA ctB vA vB fr)) (colliders (pair ctA ctB vA vB fr))
          [] true (contactOf 0%nat 1%nat).

(** Two Active bodies with perfectly elastic, frictionless colliders,
    rotation switched on. *)
Definition elasticPair (vA vB : Vector) : World :=
  mkWorld (bodies (pair Active Active vA vB 0))
          (fun c => if Nat.eqb c 0 then mkCollider 0%nat 1 1 1 0 Vec.Zero
                    else mkCollider 1%nat 1 1 1 0 Vec.Zero)
          [] true (contactOf 0%nat 1%nat).

(** One body with its collider, and a contact of that collider with
    itself. *)
Definition selfPair (ct : CollisionType) (v : Vector) : World :=
  mkWorld (fun _ => resting ct v 0%nat)
          (fun _ => collider0 0%nat 0)
          [] false (contactOf 0%nat 0%nat).

End Sample.

(** ** Readings for the further properties *)

(** The post-collision event of one positional impulse (line 78), if the
    body [a] receives it. *)
Definition boxPostEvents (w : World) (a b : BodyRef) (m : Vector) : list Emitted :=
  if receives w a b
  then [ mkEmitted (collider (bodies w a)) postcollision
           (PostCollisionEvent (collider (bodies w a)) (collider (bodies w b))
              (getSideFromVector (splitMtv w a b m)) (splitMtv w a b m)) ]
  else [].

(** Whether a RigidBody resolution gets past its three early returns
    (lines 101, 115 and 149). *)
Definition impulseApplied (w : World) : bool :=
  negb (Nat.eqb (Rigid.bodyA w) (Rigid.bodyB w))
  && negb (CollisionType_eqb (collisionType (bodies w (Rigid.bodyA w))) Passive)
  && negb (CollisionType_eqb (collisionType (bodies w (Rigid.bodyB w))) Passive)
  && negb (Rgtb (Rigid.rvNormal w) 0).

(** The denominator of the normal impulse (line 156). *)
Definition effectiveInverseMass (w : World) : R :=
  Rigid.invMassA w + Rigid.invMassB w
  + Rigid.invMoiA w * Rigid.raTangent w * Rigid.raTangent w
  + Rigid.invMoiB w * Rigid.rbTangent w * Rigid.rbTangent w.


(** The relative velocity along the normal read from a later state [w']
    of the store, for the contact of [w]: line 138-139 with the velocities
    and the angular velocities of [w']. *)
Definition rvNormalIn (w w' : World) : R :=
  Vec.dot
    (Vec.sub
       (Vec.add (vel (bodies w' (Rigid.bodyB w)))
                (Vec.crossS (Rigid.rb w) (- rx (bodies w' (Rigid.bodyB w)))))
       (Vec.sub (vel (bodies w' (Rigid.bodyA w)))
                (Vec.crossS (Rigid.ra w) (rx (bodies w' (Rigid.bodyA w))))))
    (Rigid.normal w).


(** ** The divisors *)

(** The denominator of the friction impulse (line 193). *)
Definition frictionInverseMass (w : World) : R :=
  Rigid.invMassA w + Rigid.invMassB w
  + Rigid.raNormal w * Rigid.raNormal w * Rigid.invMoiA w
  + Rigid.rbNormal w * Rigid.rbNormal w * Rigid.invMoiB w.

(** The invariant of the data model on what the code divides by: a body
    that is not Fixed has a positive mass and a positive moment of inertia
    (a Fixed body bypasses the division).  The divisions of lines 119-123
    are those of the real numbers only under it, and those of lines 156
    and 193 only when, besides, the two bodies are not both Fixed: the
    source divides by zero there and carries NaN or Infinity on. *)
Definition divisorsPositive (w : World) : Prop :=
  (collisionType (bodies w (Rigid.bodyA w)) <> Fixed ->
   0 < mass (colliders w (collider (bodies w (Rigid.bodyA w))))
   /\ 0 < moi (colliders w (collider (bodies w (Rigid.bodyA w)))))
  /\ (collisionType (bodies w (Rigid.bodyB w)) <> Fixed ->
      0 < mass (colliders w (collider (bodies w (Rigid.bodyB w))))
      /\ 0 < moi (colliders w (collider (bodies w (Rigid.bodyB w))))).


(** ** Vector objects

    The same methods read at the level of [Vector] objects, for the one
    place where the source writes a [Vector] in place: the position of a
    body under the Box strategy (lines 65-66).  A position and the three
    vectors of a contact are references into a heap of [Vector] objects,
    so that two holders can name the same object.  Velocities and
    accumulated corrections stay values: the source assigns those fields
    and never writes into the object a field holds. *)
Module Shared.

Definition VectorRef : Type := nat.

Record BodyObject : Type := mkBodyObject {
  posRef : VectorRef;
  velOf : Vector;
  rxOf : R;
  classOf : CollisionType;
  totalMtvOf : Vector;
  colliderOf : ColliderRef
}.

Record ContactObject : Type := mkContactObject {
  idOf : string;
  colliderARef : ColliderRef;
  colliderBRef : ColliderRef;
  mtvRef : VectorRef;
  pointRef : VectorRef;
  normalRef : VectorRef
}.

Record Heap : Type := mkHeap {
  vectors : VectorRef -> Vector;
  bodyObjects : BodyRef -> BodyObject;
  colliderObjects : ColliderRef -> Collider;
  emittedSoFar : list Emitted;
  rotation : bool;
  thisObject : ContactObject
}.

(** The heap read as a store of values: every reference replaced by the
    vector it names. *)
Definition view (h : Heap) : World :=
  mkWorld
    (fun b => mkBody (vectors h (posRef (bodyObjects h b)))
                (velOf (bodyObjects h b)) (rxOf (bodyObjects h b))
                (classOf (bodyObjects h b)) (totalMtvOf (bodyObjects h b))
                (colliderOf (bodyObjects h b)))
    (colliderObjects h) (emittedSoFar h) (rotation h)
    (mkCollisionContact (idOf (thisObject h))
       (colliderARef (thisObject h)) (colliderBRef (thisObject h))
       (vectors h (mtvRef (thisObject h)))
       (vectors h (pointRef (thisObject h)))
       (vectors h (normalRef (thisObject h)))).

(** A write into a [Vector] object: every holder of the reference sees it. *)
Definition writeVector (r : VectorRef) (v : Vector) (h : Heap) : Heap :=
  mkHeap (fun r' => if Nat.eqb r' r then v else vectors h r')
         (bodyObjects h) (colliderObjects h) (emittedSoFar h) (rotation h)
         (thisObject h).

(** [bodyA.vel = ...]: the field is given a new object. *)
Definition assignVel (b : BodyRef) (v : Vector) (h : Heap) : Heap :=
  mkHeap (vectors h)
         (fun r => if Nat.eqb r b
                   then mkBodyObject (posRef (bodyObjects h r)) v
                          (rxOf (bodyObjects h r)) (classOf (bodyObjects h r))
                          (totalMtvOf (bodyObjects h r))
                          (colliderOf (bodyObjects h r))
                   else bodyObjects h r)
         (colliderObjects h) (emittedSoFar h) (rotation h) (thisObject h).

Definition emitOn (c : ColliderRef) (n : EventName) (e : CollisionEvent)
    (h : Heap) : Heap :=
  mkHeap (vectors h) (bodyObjects h) (colliderObjects h)
         (emittedSoFar h ++ [mkEmitted c n e]) (rotation h) (thisObject h).

(** The guard of line 58. *)
Definition receives (h : Heap) (bodyA bodyB : BodyRef) : bool :=
  CollisionType_eqb (classOf (bodyObjects h bodyA)) Active
  && negb (CollisionType_eqb (classOf (bodyObjects h bodyB)) Passive).

(** [_applyBoxImpulse], lines 57-80: [bodyA.pos.y += mtv.y] and
    [bodyA.pos.x += mtv.x] write into the object that [bodyA.pos] names. *)
Definition _applyBoxImpulse (bodyA bodyB : BodyRef) (mtv : Vector)
    (h : Heap) : Heap :=
  if receives h bodyA bodyB
  then
    let mtv :=
      if CollisionType_eqb (classOf (bodyObjects h bodyA)) Active
         && CollisionType_eqb (classOf (bodyObjects h bodyB)) Active
      then Vec.scale mtv 0.5 else mtv in
    let p := posRef (bodyObjects h bodyA) in
    let h1 := writeVector p (mkVector (x (vectors h p)) (y (vectors h p) + y mtv)) h in
    let h2 := writeVector p (mkVector (x (vectors h1 p) + x mtv) (y (vectors h1 p))) h1 in
    let mtvDir := Vec.normalize mtv in
    let h3 :=
      if Rltb (Vec.dot mtvDir (velOf (bodyObjects h2 bodyA))) 0 then
        let velAdj :=
          Vec.scale mtvDir
            (Vec.dot mtvDir (Vec.negate (velOf (bodyObjects h2 bodyA)))) in
        assignVel bodyA (Vec.add (velOf (bodyObjects h2 bodyA)) velAdj) h2
      else h2 in
    emitOn (colliderOf (bodyObjects h3 bodyA)) postcollision
      (PostCollisionEvent (colliderOf (bodyObjects h3 bodyA))
                          (colliderOf (bodyObjects h3 bodyB))
                          (getSideFromVector mtv) mtv) h3
  else h.

(** [_resolveBoxCollision], lines 82-93: [this.mtv] is read through its
    reference, once, before anything is written. *)
Definition _resolveBoxCollision (h : Heap) : Heap :=
  let bodyA := body (colliderObjects h (colliderARef (thisObject h))) in
  let bodyB := body (colliderObjects h (colliderBRef (thisObject h))) in
  let side := getSideFromVector (vectors h (mtvRef (thisObject h))) in
  let mtv := Vec.negate (vectors h (mtvRef (thisObject h))) in
  let h1 := emitOn (colliderARef (thisObject h)) precollision
              (PreCollisionEvent (colliderOf (bodyObjects h bodyA))
                                 (colliderOf (bodyObjects h bodyB)) side mtv) h in
  let h2 := emitOn (colliderBRef (thisObject h1)) precollision
              (PreCollisionEvent (colliderOf (bodyObjects h1 bodyB))
                                 (colliderOf (bodyObjects h1 bodyA))
                                 (getOppositeSide side) (Vec.negate mtv)) h1 in
  let h3 := _applyBoxImpulse bodyA bodyB mtv h2 in
  _applyBoxImpulse bodyB bodyA (Vec.negate mtv) h3.

(** [_resolveRigidBodyCollision], lines 95-232, writes no [Vector] object
    in place: it assigns [vel], updates the number [rx] and calls
    [addMtv].  At this level it is the method of the values, run on the
    view of the heap, with every [Vector] object and every reference left
    as it is. *)
Definition _resolveRigidBodyCollision (h : Heap) : Heap :=
  mkHeap (vectors h)
         (fun b =>
            mkBodyObject (posRef (bodyObjects h b))
              (vel (bodies (_resolveRigidBodyCollision (view h)) b))
              (rx (bodies (_resolveRigidBodyCollision (view h)) b))
              (collisionType (bodies (_resolveRigidBodyCollision (view h)) b))
              (totalMtv (bodies (_resolveRigidBodyCollision (view h)) b))
              (collider (bodies (_resolveRigidBodyCollision (view h)) b)))
         (colliderObjects h)
         (emitted (_resolveRigidBodyCollision (view h)))
         (rotation h) (thisObject h).

Inductive Outcome : Type :=
| Returned (h : Heap)
| Thrown (message : string) (h : Heap).

Definition finalHeap (o : Outcome) : Heap :=
  match o with Returned h | Thrown _ h => h end.

(** [resolve], lines 47-55. *)
Definition resolve (strategy : CollisionResolutionStrategy.t) (h : Heap)
    : Outcome :=
  if Nat.eqb strategy CollisionResolutionStrategy.RigidBody then
    Returned (_resolveRigidBodyCollision h)
  else if Nat.eqb strategy CollisionResolutionStrategy.Box then
    Returned (_resolveBoxCollision h)
  else Thrown "Unknown collision resolution strategy" h.

(** What the contact reads: the vectors its three fields name. *)
Definition contactReads (h : Heap) : Vector * Vector * Vector :=
  (vectors h (mtvRef (thisObject h)),
   vectors h (pointRef (thisObject h)),
   vectors h (normalRef (thisObject h))).

(** The sentence on the contact, as it is written: after [resolve], under
    every strategy, the fields of the contact name the objects they named
    and read what they read. *)
Definition contactAsWritten (strategy : CollisionResolutionStrategy.t)
    (h : Heap) : Prop :=
  thisObject (finalHeap (resolve strategy h)) = thisObject h
  /\ contactReads (finalHeap (resolve strategy h)) = contactReads h.

(** The [Vector] objects a Box resolution writes in place: the position
    of each body of the contact that receives the impulse. *)
Definition writtenInPlace (h : Heap) (r : VectorRef) : Prop :=
  let bodyA := body (colliderObjects h (colliderARef (thisObject h))) in
  let bodyB := body (colliderObjects h (colliderBRef (thisObject h))) in
  (receives h bodyA bodyB = true /\ r = posRef (bodyObjects h bodyA))
  \/ (receives h bodyB bodyA = true /\ r = posRef (bodyObjects h bodyB)).

(** No field of the contact names an object that is written in place. *)
Definition contactUnshared (h : Heap) : Prop :=
  forall r, writtenInPlace h r ->
    r <> mtvRef (thisObject h)
    /\ r <> pointRef (thisObject h)
    /\ r <> normalRef (thisObject h).

(** Two Active bodies at rest, colliders 0 and 1; the positions are the
    objects 0 and 1, the MTV (2, 0) is the object 2, the normal (1, 0) the
    object 3, and the contact point is the object [point]. *)
Definition sample (point : VectorRef) : Heap :=
  mkHeap (fun r => if Nat.eqb r 2 then mkVector 2 0
                   else if Nat.eqb r 3 then mkVector 1 0 else Vec.Zero)
         (fun b => if Nat.eqb b 0
                   then mkBodyObject 0%nat Vec.Zero 0 Active Vec.Zero 0%nat
                   else mkBodyObject 1%nat Vec.Zero 0 Active Vec.Zero 1%nat)
         (fun c => if Nat.eqb c 0 then mkCollider 0%nat 1 1 0 0 Vec.Zero
                   else mkCollider 1%nat 1 1 0 0 Vec.Zero)
         [] false
         (mkContactObject "contact" 0%nat 1%nat 2%nat point 3%nat).

End Shared.


(** * Properties *)

(** ** Decisions and vectors *)

Lemma Rltb_true x y : Rltb x y = true <-> x < y.
Proof. unfold Rltb; destruct (Rlt_dec x y); split; (easy || discriminate). Qed.

Lemma Rltb_false x y : Rltb x y = false <-> y <= x.
Proof.
  unfold Rltb; destruct (Rlt_dec x y); split; try easy; try lra; discriminate.
Qed.

Lemma Rleb_true x y : Rleb x y = true <-> x <= y.
Proof. unfold Rleb; destruct (Rle_dec x y); split; (easy || discriminate). Qed.

Lemma Rleb_false x y : Rleb x y = false <-> y < x.
Proof.
  unfold Rleb; destruct (Rle_dec x y); split; try easy; try lra; discriminate.
Qed.

Lemma Rgtb_true x y : Rgtb x y = true <-> x > y.
Proof. unfold Rgtb; destruct (Rgt_dec x y); split; (easy || discriminate). Qed.

Lemma Rgtb_false x y : Rgtb x y = false <-> x <= y.
Proof.
  unfold Rgtb; destruct (Rgt_dec x y); split; try easy; try lra; discriminate.
Qed.

Lemma truthy_true x : truthy x = true <-> x <> 0.
Proof. unfold truthy; destruct (Req_dec_T x 0); split; (easy || discriminate). Qed.

Lemma truthy_false x : truthy x = false <-> x = 0.
Proof. unfold truthy; destruct (Req_dec_T x 0); split; (easy || discriminate). Qed.

Lemma CollisionType_eqb_eq a b : CollisionType_eqb a b = true <-> a = b.
Proof. destruct a, b; simpl; split; (easy || discriminate). Qed.

Lemma Vector_eq (u v : Vector) : x u = x v -> y u = y v -> u = v.
Proof. destruct u, v; simpl; intros -> ->; reflexivity. Qed.

Lemma distance_nonneg u : 0 <= Vec.distance u.
Proof. apply sqrt_pos. Qed.

Lemma distance_sqr u : Vec.distance u * Vec.distance u = x u * x u + y u * y u.
Proof. unfold Vec.distance; apply sqrt_sqrt; nra. Qed.

Lemma distance_scale u k : Vec.distance (Vec.scale u k) = Rabs k * Vec.distance u.
Proof.
  unfold Vec.distance, Vec.scale; simpl.
  replace (x u * k * (x u * k) + y u * k * (y u * k))
    with ((k * k) * (x u * x u + y u * y u)) by ring.
  rewrite sqrt_mult_alt by nra.
  f_equal. replace (k * k) with (Rsqr k) by reflexivity. apply sqrt_Rsqr_abs.
Qed.

Lemma distance_negate u : Vec.distance (Vec.negate u) = Vec.distance u.
Proof.
  unfold Vec.negate; rewrite distance_scale.
  rewrite (Rabs_left (-1)) by lra. ring.
Qed.

(** [normalize] always answers with a unit vector. *)
Lemma dot_normalize_self u : Vec.dot (Vec.normalize u) (Vec.normalize u) = 1.
Proof.
  unfold Vec.normalize, Vec.dot.
  destruct (Rgtb (Vec.distance u) 0) eqn:E; simpl.
  - apply Rgtb_true in E. pose proof (distance_sqr u) as H.
    assert (Hd : Vec.distance u <> 0) by lra.
    replace (x u / Vec.distance u * (x u / Vec.distance u) +
             y u / Vec.distance u * (y u / Vec.distance u))
      with ((x u * x u + y u * y u) / (Vec.distance u * Vec.distance u))
      by (field; assumption).
    rewrite <- H. field; assumption.
  - ring.
Qed.

Lemma distance_normalize u : Vec.distance (Vec.normalize u) = 1.
Proof.
  unfold Vec.distance at 1.
  pose proof (dot_normalize_self u) as H. unfold Vec.dot in H.
  rewrite H. apply sqrt_1.
Qed.


(** ** The strategy switch *)

(** C9: a strategy that is neither RigidBody nor Box makes [resolve] throw,
    with the store as it was on entry; RigidBody and Box make it return. *)
Theorem resolve_unknown_strategy_throws
    (s : CollisionResolutionStrategy.t) (w : World)
    (HR : s <> CollisionResolutionStrategy.RigidBody)
    (HB : s <> CollisionResolutionStrategy.Box) :
  resolve s w = Thrown "Unknown collision resolution strategy" w
  /\ (exists w', resolve CollisionResolutionStrategy.RigidBody w = Returned w')
  /\ (exists w', resolve CollisionResolutionStrategy.Box w = Returned w').
Proof.
  unfold resolve. repeat split.
  - apply Nat.eqb_neq in HR, HB. rewrite HR, HB. reflexivity.
  - simpl. eexists; reflexivity.
  - simpl. eexists; reflexivity.
Qed.

Lemma resolve_unknown_strategy_throws_witness :
  resolve 2%nat (Sample.pair Active Active Vec.Zero Vec.Zero 0)
  = Thrown "Unknown collision resolution strategy"
           (Sample.pair Active Active Vec.Zero Vec.Zero 0).
Proof.
  apply (resolve_unknown_strategy_throws 2%nat
           (Sample.pair Active Active Vec.Zero Vec.Zero 0));
    unfold CollisionResolutionStrategy.RigidBody, CollisionResolutionStrategy.Box;
    discriminate.
Defined.

(** ** Frame lemmas

    What each write leaves alone. *)


Lemma keeps_compose {A} (p : World -> A) f g :
  keeps p f -> keeps p g -> keeps p (fun w => g (f w)).
Proof. intros Hf Hg w. rewrite Hg. apply Hf. Qed.

Lemma keeps_cond {A} (p : World -> A) (c : World -> bool) f g :
  keeps p f -> keeps p g -> keeps p (fun w => if c w then f w else g w).
Proof. intros Hf Hg w. destruct (c w); [apply Hf | apply Hg]. Qed.

Lemma bodies_updBody b f w r :
  bodies (updBody b f w) r = if Nat.eqb r b then f (bodies w r) else bodies w r.
Proof. reflexivity. Qed.

Lemma bodies_updBody_other b f w r : r <> b -> bodies (updBody b f w) r = bodies w r.
Proof. intros H. rewrite bodies_updBody. apply Nat.eqb_neq in H. now rewrite H. Qed.

Lemma bodies_updBody_same b f w : bodies (updBody b f w) b = f (bodies w b).
Proof. rewrite bodies_updBody. now rewrite Nat.eqb_refl. Qed.



Lemma bodyBlind_vel {A} (p : World -> A) : bodyBlind p -> velBlind p.
Proof. intros H b v w; apply H. Qed.
Lemma bodyBlind_rx {A} (p : World -> A) : bodyBlind p -> rxBlind p.
Proof. intros H b v w; apply H. Qed.
Lemma bodyBlind_mtv {A} (p : World -> A) : bodyBlind p -> mtvBlind p.
Proof. intros H b v w; apply H. Qed.

Lemma this_bodyBlind : bodyBlind this.
Proof. intros b f w; reflexivity. Qed.

Lemma emitted_bodyBlind : bodyBlind emitted.
Proof. intros b f w; reflexivity. Qed.

Lemma colliders_bodyBlind : bodyBlind colliders.
Proof. intros b f w; reflexivity. Qed.

Lemma rotation_bodyBlind : bodyBlind allowRigidBodyRotation.
Proof. intros b f w; reflexivity. Qed.

Lemma field_updBody {T} (g : Body -> T) b f w r :
  (forall o, g (f o) = g o) -> g (bodies (updBody b f w) r) = g (bodies w r).
Proof.
  intros Hf. rewrite bodies_updBody. destruct (Nat.eqb r b); [apply Hf | reflexivity].
Qed.

Section BodyWrites.
Context {A : Type} (p : World -> A).
Hypothesis (Hvel : velBlind p) (Hrx : rxBlind p).

Lemma keeps_vel_add b v : keeps p (vel_add b v).
Proof. intros w; apply Hvel. Qed.
Lemma keeps_vel_sub b v : keeps p (vel_sub b v).
Proof. intros w; apply Hvel. Qed.
Lemma keeps_rx_add b r : keeps p (rx_add b r).
Proof. intros w; apply Hrx. Qed.
Lemma keeps_rx_sub b r : keeps p (rx_sub b r).
Proof. intros w; apply Hrx. Qed.

Lemma keeps_whenRotation f : keeps p f -> keeps p (whenRotation f).
Proof. intros Hf w. unfold whenRotation. destruct (allowRigidBodyRotation w); auto. Qed.

Lemma keeps_applyFrictionImpulse w0 : keeps p (applyFrictionImpulse w0).
Proof.
  intros w. unfold applyFrictionImpulse.
  repeat match goal with
  | |- context [if ?c then _ else _] => destruct c
  end; cbv zeta;
  repeat first [ rewrite keeps_whenRotation
               | rewrite keeps_vel_add | rewrite keeps_vel_sub
               | rewrite keeps_rx_add | rewrite keeps_rx_sub ];
  try reflexivity;
  try (intros ?; repeat first [ rewrite keeps_rx_add | rewrite keeps_rx_sub ];
       reflexivity).
Qed.

Hypothesis (Hmtv : mtvBlind p).

Lemma keeps_addMtv b v : keeps p (addMtv b v).
Proof. intros w; apply Hmtv. Qed.

Lemma keeps_applyNormalImpulse w0 : keeps p (applyNormalImpulse w0).
Proof.
  intros w. unfold applyNormalImpulse.
  repeat match goal with
  | |- context [if ?c then _ else _] => destruct c
  end; cbv zeta;
  repeat first [ rewrite keeps_addMtv | rewrite keeps_vel_add | rewrite keeps_vel_sub
               | rewrite keeps_whenRotation
               | rewrite keeps_rx_add | rewrite keeps_rx_sub ];
  try reflexivity;
  try (intros ?; repeat first [ rewrite keeps_rx_add | rewrite keeps_rx_sub ];
       reflexivity).
Qed.
End BodyWrites.

Ltac split_ifs :=
  repeat match goal with
  | |- context [if ?c then _ else _] => destruct c
  end.

Lemma this_emit c n e : keeps this (emit c n e).
Proof. intros w; reflexivity. Qed.

Lemma bodies_emit c n e : keeps bodies (emit c n e).
Proof. intros w; reflexivity. Qed.

Lemma this_applyBoxImpulse a b m : keeps this (_applyBoxImpulse a b m).
Proof. intros w. unfold _applyBoxImpulse. split_ifs; reflexivity. Qed.

Lemma this_resolveBoxCollision : keeps this _resolveBoxCollision.
Proof.
  intros w. unfold _resolveBoxCollision. cbv zeta.
  now rewrite !this_applyBoxImpulse, !this_emit.
Qed.

Lemma this_resolveRigidBodyCollision : keeps this _resolveRigidBodyCollision.
Proof.
  intros w. unfold _resolveRigidBodyCollision. cbv zeta.
  split_ifs; try reflexivity;
    rewrite !this_emit;
    try rewrite (keeps_applyFrictionImpulse this
                   (bodyBlind_vel _ this_bodyBlind) (bodyBlind_rx _ this_bodyBlind));
    rewrite (keeps_applyNormalImpulse this
               (bodyBlind_vel _ this_bodyBlind) (bodyBlind_rx _ this_bodyBlind)
               (bodyBlind_mtv _ this_bodyBlind));
    now rewrite !this_emit.
Qed.

(** ** The contact itself *)


(** ** Sample states, evaluated *)

Lemma normalize_of_unit u : Vec.dot u u = 1 -> Vec.normalize u = u.
Proof.
  intros H. unfold Vec.normalize.
  assert (Hd : Vec.distance u = 1).
  { unfold Vec.distance. unfold Vec.dot in H. rewrite H. apply sqrt_1. }
  rewrite Hd. replace (Rgtb 1 0) with true by (symmetry; apply Rgtb_true; lra).
  apply Vector_eq; simpl; field.
Qed.

Lemma Sample_rvNormal ctA ctB vA vB fr :
  Rigid.rvNormal (Sample.pair ctA ctB vA vB fr) = x vB - x vA.
Proof.
  unfold Rigid.rvNormal, Rigid.normal. simpl.
  rewrite normalize_of_unit by (unfold Vec.dot; simpl; ring).
  unfold Rigid.rv, Rigid.rb, Rigid.ra, Rigid.bodyA, Rigid.bodyB. simpl.
  unfold Vec.dot, Vec.sub, Vec.add, Vec.crossS. simpl.
  ring.
Qed.

(** ** RigidBody: the early returns *)

Lemma rigid_self_pair_returns (w : World) :
  Rigid.bodyA w = Rigid.bodyB w -> _resolveRigidBodyCollision w = w.
Proof.
  intros H. unfold _resolveRigidBodyCollision. cbv zeta.
  rewrite H, Nat.eqb_refl. reflexivity.
Qed.

Lemma rigid_passive_returns (w : World) :
  Rigid.bodyA w <> Rigid.bodyB w ->
  collisionType (bodies w (Rigid.bodyA w)) = Passive
  \/ collisionType (bodies w (Rigid.bodyB w)) = Passive ->
  _resolveRigidBodyCollision w
  = mkWorld (bodies w) (colliders w) (emitted w ++ rigidPreEvents w)
            (allowRigidBodyRotation w) (this w).
Proof.
  intros Hne HP. unfold _resolveRigidBodyCollision. cbv zeta.
  apply Nat.eqb_neq in Hne. rewrite Hne.
  rewrite !bodies_emit.
  replace (CollisionType_eqb (collisionType (bodies w (Rigid.bodyA w))) Passive
           || CollisionType_eqb (collisionType (bodies w (Rigid.bodyB w))) Passive)
    with true.
  - unfold emit, rigidPreEvents; simpl. now rewrite <- app_assoc.
  - symmetry. apply orb_true_iff.
    destruct HP as [HP | HP]; [left | right]; now apply CollisionType_eqb_eq.
Qed.

Lemma rigid_separating_returns (w : World) :
  Rigid.bodyA w <> Rigid.bodyB w ->
  Rigid.rvNormal w > 0 ->
  _resolveRigidBodyCollision w
  = mkWorld (bodies w) (colliders w) (emitted w ++ rigidPreEvents w)
            (allowRigidBodyRotation w) (this w).
Proof.
  intros Hne Hsep. unfold _resolveRigidBodyCollision. cbv zeta.
  apply Nat.eqb_neq in Hne. rewrite Hne.
  apply Rgtb_true in Hsep. rewrite Hsep.
  destruct (_ || _); unfold emit, rigidPreEvents; simpl; now rewrite <- app_assoc.
Qed.

(** C8: a pair of two distinct bodies, neither of them Passive, whose
    relative velocity along the normal is strictly positive, is resolved by
    a plain return: no body of the store is changed, and nothing is
    thrown. *)
Theorem rigid_separating_is_noop (w : World)
    (Hself : Rigid.bodyA w <> Rigid.bodyB w)
    (HA : collisionType (bodies w (Rigid.bodyA w)) <> Passive)
    (HB : collisionType (bodies w (Rigid.bodyB w)) <> Passive)
    (Hsep : Rigid.rvNormal w > 0) :
  exists w',
    resolve CollisionResolutionStrategy.RigidBody w = Returned w'
    /\ sameBodies w w'
    /\ (forall b, b = Rigid.bodyA w \/ b = Rigid.bodyB w ->
          vel (bodies w' b) = vel (bodies w b)
          /\ rx (bodies w' b) = rx (bodies w b)
          /\ pos (bodies w' b) = pos (bodies w b)
          /\ totalMtv (bodies w' b) = totalMtv (bodies w b)).
Proof.
  eexists. split; [reflexivity |].
  rewrite rigid_separating_returns by assumption.
  split; [intros r; reflexivity |].
  intros b _. simpl. repeat split.
Qed.

Lemma rigid_separating_is_noop_witness :
  exists w',
    resolve CollisionResolutionStrategy.RigidBody
      (Sample.pair Active Active Vec.Zero (mkVector 1 0) 0) = Returned w'
    /\ sameBodies (Sample.pair Active Active Vec.Zero (mkVector 1 0) 0) w'.
Proof.
  destruct (rigid_separating_is_noop
              (Sample.pair Active Active Vec.Zero (mkVector 1 0) 0))
    as (w' & Hr & Hs & _).
  - simpl. discriminate.
  - simpl. discriminate.
  - simpl. discriminate.
  - rewrite Sample_rvNormal. simpl. lra.
  - exists w'. split; assumption.
Defined.

(** C1, as the code has it: when either body of the pair is Passive, a
    RigidBody resolution changes no body (velocity, angular velocity,
    position and accumulated correction are what they were).  For two
    distinct bodies exactly the two pre-collision events are emitted, one
    on each collider, and no post-collision event; for a self-pair nothing
    is emitted. *)
Theorem rigid_passive_pair (w : World)
    (HP : collisionType (bodies w (Rigid.bodyA w)) = Passive
          \/ collisionType (bodies w (Rigid.bodyB w)) = Passive) :
  exists w',
    resolve CollisionResolutionStrategy.RigidBody w = Returned w'
    /\ sameBodies w w'
    /\ emittedSince w w'
         (if Nat.eqb (Rigid.bodyA w) (Rigid.bodyB w) then []
          else rigidPreEvents w).
Proof.
  eexists. split; [reflexivity |].
  destruct (Nat.eqb (Rigid.bodyA w) (Rigid.bodyB w)) eqn:E.
  - apply Nat.eqb_eq in E. rewrite rigid_self_pair_returns by assumption.
    split; [intros r; reflexivity |].
    unfold emittedSince. now rewrite app_nil_r.
  - apply Nat.eqb_neq in E. rewrite rigid_passive_returns by assumption.
    split; [intros r; reflexivity | reflexivity].
Qed.

Lemma rigid_passive_pair_witness :
  exists w',
    resolve CollisionResolutionStrategy.RigidBody
      (Sample.pair Passive Active Vec.Zero Vec.Zero 0) = Returned w'
    /\ sameBodies (Sample.pair Passive Active Vec.Zero Vec.Zero 0) w'
    /\ emittedSince (Sample.pair Passive Active Vec.Zero Vec.Zero 0) w'
         (rigidPreEvents (Sample.pair Passive Active Vec.Zero Vec.Zero 0)).
Proof.
  apply (rigid_passive_pair (Sample.pair Passive Active Vec.Zero Vec.Zero 0)).
  left. reflexivity.
Defined.

(** C1, as written, fails: on a Passive body paired with an Active one no
    post-collision event is emitted, and on a Passive self-pair no event
    at all. *)
Lemma passive_pair_as_written_fails :
  ~ passivePairAsWritten (Sample.pair Passive Active Vec.Zero Vec.Zero 0)
  /\ ~ passivePairAsWritten (Sample.selfPair Passive Vec.Zero).
Proof.
  split; intros H.
  - destruct H as (w' & l & Hr & _ & Hl & _ & _ & (e & Hin) & _).
    { left; reflexivity. }
    unfold resolve in Hr. simpl Nat.eqb in Hr. cbv iota in Hr.
    rewrite rigid_passive_returns in Hr;
      [ | simpl; discriminate | left; reflexivity ].
    injection Hr as <-. unfold emittedSince in Hl. simpl in Hl.
    subst l. simpl in Hin.
    destruct Hin as [Hin | [Hin | []]]; discriminate Hin.
  - destruct H as (w' & l & Hr & _ & Hl & (e & Hin) & _).
    { left; reflexivity. }
    unfold resolve in Hr. simpl Nat.eqb in Hr. cbv iota in Hr.
    rewrite rigid_self_pair_returns in Hr by reflexivity.
    injection Hr as <-. unfold emittedSince in Hl. simpl in Hl.
    subst l. destruct Hin.
Qed.

(** ** Box: one positional impulse *)

Lemma applyBox_skip a b m w :
  receives w a b = false -> _applyBoxImpulse a b m w = w.
Proof. unfold receives, _applyBoxImpulse. intros ->. reflexivity. Qed.

Lemma applyBox_other a b m w r :
  r <> a -> bodies (_applyBoxImpulse a b m w) r = bodies w r.
Proof.
  intros Hr. apply Nat.eqb_neq in Hr. unfold _applyBoxImpulse.
  split_ifs; simpl; rewrite ?Hr; reflexivity.
Qed.

Lemma applyBox_receiver a b m w :
  receives w a b = true ->
  bodies (_applyBoxImpulse a b m w) a
  = mkBody (mkVector (x (pos (bodies w a)) + x (splitMtv w a b m))
                     (y (pos (bodies w a)) + y (splitMtv w a b m)))
           (cancelOpposing (Vec.normalize (splitMtv w a b m)) (vel (bodies w a)))
           (rx (bodies w a)) (collisionType (bodies w a))
           (totalMtv (bodies w a)) (collider (bodies w a)).
Proof.
  unfold receives, _applyBoxImpulse, splitMtv, cancelOpposing. intros ->.
  cbv zeta. rewrite bodies_emit.
  unfold set_vel, set_pos, updBody. simpl. rewrite !Nat.eqb_refl. simpl.
  split_ifs; simpl; rewrite ?Nat.eqb_refl; reflexivity.
Qed.

Lemma applyBox_collisionType a b m w r :
  collisionType (bodies (_applyBoxImpulse a b m w) r) = collisionType (bodies w r).
Proof.
  destruct (Nat.eq_dec r a) as [-> | Hr].
  - destruct (receives w a b) eqn:E.
    + now rewrite applyBox_receiver.
    + now rewrite applyBox_skip.
  - now rewrite applyBox_other.
Qed.

Lemma applyBox_colliderOf a b m w r :
  collider (bodies (_applyBoxImpulse a b m w) r) = collider (bodies w r).
Proof.
  destruct (Nat.eq_dec r a) as [-> | Hr].
  - destruct (receives w a b) eqn:E.
    + now rewrite applyBox_receiver.
    + now rewrite applyBox_skip.
  - now rewrite applyBox_other.
Qed.

Lemma applyBox_emitted a b m w :
  emitted (_applyBoxImpulse a b m w)
  = emitted w ++
    (if receives w a b
     then [ mkEmitted (collider (bodies w a)) postcollision
              (PostCollisionEvent (collider (bodies w a)) (collider (bodies w b))
                 (getSideFromVector (splitMtv w a b m)) (splitMtv w a b m)) ]
     else []).
Proof.
  destruct (receives w a b) eqn:E.
  - pose proof (applyBox_colliderOf a b m w) as Hc.
    unfold receives, _applyBoxImpulse, splitMtv in *. rewrite E in *.
    cbv zeta in *. simpl emitted. rewrite bodies_emit in Hc.
    rewrite !Hc. split_ifs; reflexivity.
  - rewrite applyBox_skip by assumption. now rewrite app_nil_r.
Qed.

Lemma applyBox_receiver_pushed a b m w :
  receives w a b = true ->
  bodies (_applyBoxImpulse a b m w) a = pushed (bodies w a) (splitMtv w a b m).
Proof. apply applyBox_receiver. Qed.

Lemma receives_applyBox a b m w c d :
  receives (_applyBoxImpulse a b m w) c d = receives w c d.
Proof. unfold receives. now rewrite !applyBox_collisionType. Qed.

Lemma splitMtv_applyBox a b m w c d v :
  splitMtv (_applyBoxImpulse a b m w) c d v = splitMtv w c d v.
Proof. unfold splitMtv. now rewrite !applyBox_collisionType. Qed.

(** ** Box: the whole resolution *)

Section BoxResolution.
Variable w : World.
Let A := Rigid.bodyA w.
Let B := Rigid.bodyB w.
Let m := Vec.negate (mtv (this w)).

(** The state after the two pre-collision events. *)
Let w2 : World :=
  emit (colliderB (this w)) precollision
    (PreCollisionEvent (collider (bodies w B)) (collider (bodies w A))
       (getOppositeSide (getSideFromVector (mtv (this w)))) (Vec.negate m))
    (emit (colliderA (this w)) precollision
       (PreCollisionEvent (collider (bodies w A)) (collider (bodies w B))
          (getSideFromVector (mtv (this w))) m) w).

Lemma box_unfold :
  _resolveBoxCollision w
  = _applyBoxImpulse B A (Vec.negate m) (_applyBoxImpulse A B m w2).
Proof. reflexivity. Qed.

Lemma box_bodyA_distinct :
  A <> B ->
  bodies (_resolveBoxCollision w) A
  = if receives w A B then pushed (bodies w A) (splitMtv w A B m)
    else bodies w A.
Proof.
  intros Hne. rewrite box_unfold, applyBox_other by assumption.
  change (receives w A B) with (receives w2 A B).
  change (splitMtv w A B m) with (splitMtv w2 A B m).
  change (bodies w A) with (bodies w2 A).
  destruct (receives w2 A B) eqn:E.
  - now apply applyBox_receiver_pushed.
  - now rewrite applyBox_skip.
Qed.

Lemma box_bodyB_distinct :
  A <> B ->
  bodies (_resolveBoxCollision w) B
  = if receives w B A then pushed (bodies w B) (splitMtv w B A (Vec.negate m))
    else bodies w B.
Proof.
  intros Hne. rewrite box_unfold.
  change (receives w B A) with (receives w2 B A).
  change (splitMtv w B A (Vec.negate m)) with (splitMtv w2 B A (Vec.negate m)).
  change (bodies w B) with (bodies w2 B).
  rewrite <- (receives_applyBox A B m w2 B A).
  rewrite <- (splitMtv_applyBox A B m w2 B A).
  rewrite <- (applyBox_other A B m w2 B) by (intros H; apply Hne; now symmetry).
  destruct (receives (_applyBoxImpulse A B m w2) B A) eqn:E.
  - now apply applyBox_receiver_pushed.
  - now rewrite applyBox_skip.
Qed.

Lemma box_other_bodies r :
  r <> A -> r <> B -> bodies (_resolveBoxCollision w) r = bodies w r.
Proof. intros HA HB. rewrite box_unfold, !applyBox_other by assumption. reflexivity. Qed.
End BoxResolution.

Lemma displacement_pushed (o : Body) (m : Vector) :
  Vec.sub (pos (pushed o m)) (pos o) = m.
Proof. apply Vector_eq; simpl; ring. Qed.

Lemma negate_negate (u : Vector) : Vec.negate (Vec.negate u) = u.
Proof. apply Vector_eq; simpl; ring. Qed.

Lemma distance_half (u : Vector) : Vec.distance (Vec.scale u 0.5) = Vec.distance u / 2.
Proof. rewrite distance_scale, Rabs_right by lra. lra. Qed.

(** C6: under the Box strategy, two distinct Active bodies are each moved
    by half of the MTV, body A against it and body B along it, so that each
    position changes by M/2 where M is the length of the MTV; of a Fixed
    and an Active body the Fixed one keeps its position and the Active one
    is moved by the whole MTV, a distance of M. *)
Theorem box_split_overlap (w : World)
    (Hne : Rigid.bodyA w <> Rigid.bodyB w) :
  exists w',
    resolve CollisionResolutionStrategy.Box w = Returned w'
    /\ (collisionType (bodies w (Rigid.bodyA w)) = Active ->
        collisionType (bodies w (Rigid.bodyB w)) = Active ->
        displacement w w' (Rigid.bodyA w) = Vec.scale (Vec.negate (mtv (this w))) 0.5
        /\ displacement w w' (Rigid.bodyB w) = Vec.scale (mtv (this w)) 0.5
        /\ Vec.distance (displacement w w' (Rigid.bodyA w))
           = Vec.distance (mtv (this w)) / 2
        /\ Vec.distance (displacement w w' (Rigid.bodyB w))
           = Vec.distance (mtv (this w)) / 2)
    /\ (collisionType (bodies w (Rigid.bodyA w)) = Fixed ->
        collisionType (bodies w (Rigid.bodyB w)) = Active ->
        pos (bodies w' (Rigid.bodyA w)) = pos (bodies w (Rigid.bodyA w))
        /\ displacement w w' (Rigid.bodyB w) = mtv (this w)
        /\ Vec.distance (displacement w w' (Rigid.bodyB w))
           = Vec.distance (mtv (this w)))
    /\ (collisionType (bodies w (Rigid.bodyA w)) = Active ->
        collisionType (bodies w (Rigid.bodyB w)) = Fixed ->
        pos (bodies w' (Rigid.bodyB w)) = pos (bodies w (Rigid.bodyB w))
        /\ displacement w w' (Rigid.bodyA w) = Vec.negate (mtv (this w))
        /\ Vec.distance (displacement w w' (Rigid.bodyA w))
           = Vec.distance (mtv (this w))).
Proof.
  exists (_resolveBoxCollision w). split; [reflexivity |].
  unfold displacement.
  rewrite (box_bodyA_distinct w Hne), (box_bodyB_distinct w Hne).
  unfold receives, splitMtv. rewrite negate_negate.
  split; [| split]; intros HA HB; rewrite HA, HB;
    cbn [CollisionType_eqb andb negb];
    rewrite ?displacement_pushed; repeat split.
  - rewrite distance_half, distance_negate. reflexivity.
  - apply distance_half.
  - apply distance_negate.
Qed.

Lemma box_split_overlap_witness :
  exists w',
    resolve CollisionResolutionStrategy.Box
      (Sample.pair Active Active Vec.Zero Vec.Zero 0) = Returned w'
    /\ displacement (Sample.pair Active Active Vec.Zero Vec.Zero 0) w' 0%nat
       = Vec.scale (Vec.negate (mkVector 2 0)) 0.5
    /\ displacement (Sample.pair Active Active Vec.Zero Vec.Zero 0) w' 1%nat
       = Vec.scale (mkVector 2 0) 0.5.
Proof.
  destruct (box_split_overlap (Sample.pair Active Active Vec.Zero Vec.Zero 0))
    as (w' & Hr & Hact & _).
  - simpl. discriminate.
  - exists w'. split; [exact Hr |].
    destruct Hact as (HA & HB & _); try reflexivity.
    split; assumption.
Defined.

(** ** Box: the velocity of a receiving body *)

Lemma normalize_scale_pos (u : Vector) (k : R) :
  0 < k -> Vec.normalize (Vec.scale u k) = Vec.normalize u.
Proof.
  intros Hk. unfold Vec.normalize.
  rewrite distance_scale, (Rabs_right k) by lra.
  pose proof (distance_nonneg u) as Hd.
  destruct (Rgtb (Vec.distance u) 0) eqn:E.
  - apply Rgtb_true in E.
    replace (Rgtb (k * Vec.distance u) 0) with true
      by (symmetry; apply Rgtb_true; nra).
    apply Vector_eq; simpl; field; lra.
  - apply Rgtb_false in E. assert (H0 : Vec.distance u = 0) by lra.
    rewrite H0, Rmult_0_r.
    replace (Rgtb 0 0) with false by (symmetry; apply Rgtb_false; lra).
    reflexivity.
Qed.

Lemma normalize_splitMtv w a b m :
  Vec.normalize (splitMtv w a b m) = Vec.normalize m.
Proof.
  unfold splitMtv. destruct (_ && _); [| reflexivity].
  apply normalize_scale_pos. lra.
Qed.

Lemma cancelOpposing_along (d v : Vector) :
  Vec.dot d d = 1 -> Vec.dot d v < 0 -> Vec.dot d (cancelOpposing d v) = 0.
Proof.
  intros Hd Hlt. unfold cancelOpposing.
  apply Rltb_true in Hlt. rewrite Hlt.
  unfold Vec.dot in *. simpl.
  replace (x d * (x v + x d * (x d * (x v * -1) + y d * (y v * -1))) +
           y d * (y v + y d * (x d * (x v * -1) + y d * (y v * -1))))
    with ((x d * x v + y d * y v)
          - (x d * x d + y d * y d) * (x d * x v + y d * y v)) by ring.
  rewrite Hd. ring.
Qed.

Lemma cancelOpposing_across (d v : Vector) :
  Vec.dot (Vec.perpendicular d) (cancelOpposing d v)
  = Vec.dot (Vec.perpendicular d) v.
Proof.
  unfold cancelOpposing. destruct (Rltb _ _); [| reflexivity].
  unfold Vec.dot. simpl. ring.
Qed.

Lemma cancelOpposing_aligned (d v : Vector) :
  0 <= Vec.dot d v -> cancelOpposing d v = v.
Proof.
  intros H. unfold cancelOpposing. apply Rltb_false in H. now rewrite H.
Qed.

(** C7: let [d] be the direction of the MTV handed to the positional
    impulse (halving the MTV does not change it).  A receiving body whose
    velocity has a strictly negative dot product with [d] ends with a
    velocity whose component along [d] is zero and whose component across
    [d] is what it was; a receiving body whose velocity has a nonnegative
    dot product with [d] keeps its velocity. *)
Theorem box_cancels_opposing_velocity (w : World) (a b : BodyRef) (m : Vector)
    (Hrecv : receives w a b = true) :
  Vec.normalize (splitMtv w a b m) = Vec.normalize m
  /\ (Vec.dot (Vec.normalize m) (vel (bodies w a)) < 0 ->
      Vec.dot (Vec.normalize m) (vel (bodies (_applyBoxImpulse a b m w) a)) = 0
      /\ Vec.dot (Vec.perpendicular (Vec.normalize m))
                 (vel (bodies (_applyBoxImpulse a b m w) a))
         = Vec.dot (Vec.perpendicular (Vec.normalize m)) (vel (bodies w a)))
  /\ (0 <= Vec.dot (Vec.normalize m) (vel (bodies w a)) ->
      vel (bodies (_applyBoxImpulse a b m w) a) = vel (bodies w a)).
Proof.
  rewrite applyBox_receiver_pushed by assumption.
  unfold pushed. cbn [vel]. rewrite normalize_splitMtv.
  split; [reflexivity |]. split.
  - intros Hlt. split.
    + apply cancelOpposing_along; [apply dot_normalize_self | assumption].
    + apply cancelOpposing_across.
  - apply cancelOpposing_aligned.
Qed.

Lemma normalize_scaled_unit (u : Vector) (k : R) :
  Vec.dot u u = 1 -> 0 < k -> Vec.normalize (Vec.scale u k) = u.
Proof.
  intros Hu Hk. rewrite normalize_scale_pos by assumption.
  now apply normalize_of_unit.
Qed.

Lemma normalize_minus_two_x : Vec.normalize (mkVector (-2) 0) = mkVector (-1) 0.
Proof.
  replace (mkVector (-2) 0) with (Vec.scale (mkVector (-1) 0) 2)
    by (apply Vector_eq; simpl; lra).
  apply normalize_scaled_unit; [unfold Vec.dot; simpl; lra | lra].
Qed.

Lemma box_cancels_opposing_velocity_witness :
  Vec.dot (Vec.normalize (mkVector (-2) 0))
          (vel (bodies (_applyBoxImpulse 0%nat 1%nat (mkVector (-2) 0)
                          (Sample.pair Active Active (mkVector 1 0) Vec.Zero 0))
                       0%nat)) = 0.
Proof.
  destruct (box_cancels_opposing_velocity
              (Sample.pair Active Active (mkVector 1 0) Vec.Zero 0)
              0%nat 1%nat (mkVector (-2) 0)) as (_ & Hopp & _).
  - reflexivity.
  - apply Hopp. rewrite normalize_minus_two_x. unfold Vec.dot. simpl. lra.
Defined.

(** ** Self-pairs *)

Lemma normalize_two_x : Vec.normalize (mkVector 2 0) = mkVector 1 0.
Proof.
  replace (mkVector 2 0) with (Vec.scale (mkVector 1 0) 2)
    by (apply Vector_eq; simpl; lra).
  apply normalize_scaled_unit; [unfold Vec.dot; simpl; lra | lra].
Qed.

(** C2, RigidBody half: a self-pair is resolved by the first [return];
    the state, events included, is the one the method was entered in. *)
Lemma rigid_self_pair_is_noop (w : World) :
  Rigid.bodyA w = Rigid.bodyB w ->
  resolve CollisionResolutionStrategy.RigidBody w = Returned w.
Proof.
  intros H. unfold resolve. simpl. now rewrite rigid_self_pair_returns.
Qed.

(** The Box strategy emits its two pre-collision events whatever the
    pair is, a self-pair included. *)
Lemma box_emits_pre_events (w : World) :
  exists l, emitted (_resolveBoxCollision w) = emitted w ++ boxPreEvents w ++ l.
Proof.
  rewrite box_unfold, !applyBox_emitted. cbn [emitted emit].
  eexists. rewrite <- !app_assoc. cbn [app]. reflexivity.
Qed.

(** C2, Box half, at a sample state: a contact of a collider with itself,
    on an Active body that moves at (1, 0), with the MTV (2, 0).  The Box
    strategy has no guard for the self-pair: it emits two pre-collision and
    two post-collision events and stops the body. *)
Theorem box_self_pair_is_resolved :
  let w := Sample.selfPair Active (mkVector 1 0) in
  body (colliders w (colliderA (this w))) = body (colliders w (colliderB (this w)))
  /\ exists w',
       resolve CollisionResolutionStrategy.Box w = Returned w'
       /\ map (fun e => (target e, name e)) (emitted w')
          = [ (0%nat, precollision); (0%nat, precollision);
              (0%nat, postcollision); (0%nat, postcollision) ]
       /\ vel (bodies w 0%nat) = mkVector 1 0
       /\ vel (bodies w' 0%nat) = mkVector 0 0.
Proof.
  intros w. split; [reflexivity |].
  exists (_resolveBoxCollision w). split; [reflexivity |].
  rewrite box_unfold.
  set (m := Vec.negate (mtv (this w))).
  match goal with
  | |- context [_applyBoxImpulse _ _ m ?s] => set (w2 := s)
  end.
  set (w3 := _applyBoxImpulse (Rigid.bodyA w) (Rigid.bodyB w) m w2).
  assert (R2 : receives w2 0%nat 0%nat = true) by reflexivity.
  assert (R3 : receives w3 0%nat 0%nat = true)
    by (unfold w3; rewrite receives_applyBox; exact R2).
  change (Rigid.bodyA w) with 0%nat in *. change (Rigid.bodyB w) with 0%nat in *.
  split; [| split; [reflexivity |]].
  - rewrite applyBox_emitted, R3. unfold w3 at 1.
    rewrite applyBox_emitted, R2. unfold w3.
    rewrite !applyBox_colliderOf. reflexivity.
  - rewrite applyBox_receiver_pushed by exact R3.
    unfold pushed. cbn [vel]. rewrite normalize_splitMtv.
    unfold w3. rewrite applyBox_receiver_pushed by exact R2.
    unfold pushed. cbn [vel]. rewrite normalize_splitMtv.
    replace (Vec.negate m) with (mkVector 2 0)
      by (apply Vector_eq; unfold m; simpl; ring).
    replace m with (mkVector (-2) 0) by (apply Vector_eq; unfold m; simpl; ring).
    rewrite normalize_two_x, normalize_minus_two_x.
    change (vel (bodies w2 0%nat)) with (mkVector 1 0).
    assert (H1 : cancelOpposing (mkVector (-1) 0) (mkVector 1 0) = mkVector 0 0).
    { unfold cancelOpposing.
      replace (Rltb (Vec.dot (mkVector (-1) 0) (mkVector 1 0)) 0) with true
        by (symmetry; apply Rltb_true; unfold Vec.dot; simpl; lra).
      apply Vector_eq; unfold Vec.dot; simpl; ring. }
    rewrite H1. apply cancelOpposing_aligned. unfold Vec.dot; simpl; lra.
Qed.

(** ** RigidBody: the impulses *)

Lemma rigid_applies (w : World) :
  Rigid.bodyA w <> Rigid.bodyB w ->
  collisionType (bodies w (Rigid.bodyA w)) <> Passive ->
  collisionType (bodies w (Rigid.bodyB w)) <> Passive ->
  Rigid.rvNormal w <= 0 ->
  _resolveRigidBodyCollision w
  = mkWorld (bodies (afterImpulses w)) (colliders (afterImpulses w))
            (emitted (afterImpulses w) ++ rigidPostEvents w)
            (allowRigidBodyRotation (afterImpulses w)) (this (afterImpulses w)).
Proof.
  intros Hne HA HB Hrv.
  unfold _resolveRigidBodyCollision. cbv zeta.
  apply Nat.eqb_neq in Hne. rewrite Hne.
  rewrite !bodies_emit.
  replace (CollisionType_eqb (collisionType (bodies w (Rigid.bodyA w))) Passive)
    with false
    by (destruct (collisionType (bodies w (Rigid.bodyA w))); easy).
  replace (CollisionType_eqb (collisionType (bodies w (Rigid.bodyB w))) Passive)
    with false
    by (destruct (collisionType (bodies w (Rigid.bodyB w))); easy).
  apply Rgtb_false in Hrv. rewrite Hrv. cbn [orb].
  unfold afterImpulses, frictionStep.
  replace (emit (colliderB (this w)) precollision
             (PreCollisionEvent (colliderB (this w)) (colliderA (this w))
                (getOppositeSide (Rigid.side w)) (Vec.negate (mtv (this w))))
             (emit (colliderA (this w)) precollision
                (PreCollisionEvent (colliderA (this w)) (colliderB (this w))
                   (Rigid.side w) (mtv (this w))) w))
    with (afterPreEvents w)
    by (unfold afterPreEvents, emit, rigidPreEvents; simpl; now rewrite <- app_assoc).
  unfold emit, rigidPostEvents. simpl. now rewrite <- app_assoc.
Qed.

Lemma collisionType_velBlind r : velBlind (fun w => collisionType (bodies w r)).
Proof. intros b v w. now apply (field_updBody collisionType). Qed.
Lemma collisionType_rxBlind r : rxBlind (fun w => collisionType (bodies w r)).
Proof. intros b v w. now apply (field_updBody collisionType). Qed.
Lemma collisionType_mtvBlind r : mtvBlind (fun w => collisionType (bodies w r)).
Proof. intros b v w. now apply (field_updBody collisionType). Qed.

Lemma pos_velBlind r : velBlind (fun w => pos (bodies w r)).
Proof. intros b v w. now apply (field_updBody pos). Qed.
Lemma pos_rxBlind r : rxBlind (fun w => pos (bodies w r)).
Proof. intros b v w. now apply (field_updBody pos). Qed.
Lemma pos_mtvBlind r : mtvBlind (fun w => pos (bodies w r)).
Proof. intros b v w. now apply (field_updBody pos). Qed.

Lemma totalMtv_velBlind r : velBlind (fun w => totalMtv (bodies w r)).
Proof. intros b v w. now apply (field_updBody totalMtv). Qed.
Lemma totalMtv_rxBlind r : rxBlind (fun w => totalMtv (bodies w r)).
Proof. intros b v w. now apply (field_updBody totalMtv). Qed.

Lemma collisionType_applyNormalImpulse w0 w r :
  collisionType (bodies (applyNormalImpulse w0 w) r) = collisionType (bodies w r).
Proof.
  apply (keeps_applyNormalImpulse (fun w => collisionType (bodies w r))
           (collisionType_velBlind r) (collisionType_rxBlind r)
           (collisionType_mtvBlind r)).
Qed.

Lemma pos_applyNormalImpulse w0 w r :
  pos (bodies (applyNormalImpulse w0 w) r) = pos (bodies w r).
Proof.
  apply (keeps_applyNormalImpulse (fun w => pos (bodies w r))
           (pos_velBlind r) (pos_rxBlind r) (pos_mtvBlind r)).
Qed.

Lemma pos_applyFrictionImpulse w0 w r :
  pos (bodies (applyFrictionImpulse w0 w) r) = pos (bodies w r).
Proof.
  apply (keeps_applyFrictionImpulse (fun w => pos (bodies w r))
           (pos_velBlind r) (pos_rxBlind r)).
Qed.

(** No RigidBody resolution moves a body: positions are corrected later,
    from the accumulated vector. *)
Lemma pos_afterImpulses w r : pos (bodies (afterImpulses w) r) = pos (bodies w r).
Proof.
  unfold afterImpulses. cbv zeta.
  destruct (frictionStep w);
    rewrite ?pos_applyFrictionImpulse, pos_applyNormalImpulse; reflexivity.
Qed.

Lemma totalMtv_applyFrictionImpulse w0 w r :
  totalMtv (bodies (applyFrictionImpulse w0 w) r) = totalMtv (bodies w r).
Proof.
  apply (keeps_applyFrictionImpulse (fun w => totalMtv (bodies w r))
           (totalMtv_velBlind r) (totalMtv_rxBlind r)).
Qed.

Ltac body_writes H :=
  unfold whenRotation, addMtv, vel_add, vel_sub, rx_add, rx_sub,
         set_vel, set_rx, updBody;
  simpl; rewrite ?H, ?Nat.eqb_refl; simpl;
  split_ifs; simpl; rewrite ?H, ?Nat.eqb_refl; simpl;
  try reflexivity.

(** Body A is Fixed: only body B is written. *)
Lemma applyNormalImpulse_fixedA w0 w :
  Rigid.bodyA w0 <> Rigid.bodyB w0 ->
  collisionType (bodies w (Rigid.bodyA w0)) = Fixed ->
  bodies (applyNormalImpulse w0 w) (Rigid.bodyA w0) = bodies w (Rigid.bodyA w0)
  /\ totalMtv (bodies (applyNormalImpulse w0 w) (Rigid.bodyB w0))
     = Vec.add (totalMtv (bodies w (Rigid.bodyB w0))) (mtv (this w0)).
Proof.
  intros Hne HA. apply Nat.eqb_neq in Hne.
  unfold applyNormalImpulse. cbv zeta. rewrite HA. cbn [CollisionType_eqb].
  split; body_writes Hne.
Qed.

Lemma applyFrictionImpulse_fixedA w0 w :
  Rigid.bodyA w0 <> Rigid.bodyB w0 ->
  collisionType (bodies w (Rigid.bodyA w0)) = Fixed ->
  bodies (applyFrictionImpulse w0 w) (Rigid.bodyA w0) = bodies w (Rigid.bodyA w0).
Proof.
  intros Hne HA. apply Nat.eqb_neq in Hne.
  unfold applyFrictionImpulse. cbv zeta. rewrite HA. cbn [CollisionType_eqb].
  body_writes Hne.
Qed.

(** Body B is Fixed and body A is not: only body A is written. *)
Lemma applyNormalImpulse_fixedB w0 w :
  Rigid.bodyA w0 <> Rigid.bodyB w0 ->
  collisionType (bodies w (Rigid.bodyA w0)) <> Fixed ->
  collisionType (bodies w (Rigid.bodyB w0)) = Fixed ->
  bodies (applyNormalImpulse w0 w) (Rigid.bodyB w0) = bodies w (Rigid.bodyB w0)
  /\ totalMtv (bodies (applyNormalImpulse w0 w) (Rigid.bodyA w0))
     = Vec.add (totalMtv (bodies w (Rigid.bodyA w0))) (Vec.negate (mtv (this w0))).
Proof.
  intros Hne HA HB.
  assert (Hne' : Nat.eqb (Rigid.bodyB w0) (Rigid.bodyA w0) = false)
    by (apply Nat.eqb_neq; intros E; apply Hne; now symmetry).
  unfold applyNormalImpulse. cbv zeta. rewrite HB.
  replace (CollisionType_eqb (collisionType (bodies w (Rigid.bodyA w0))) Fixed)
    with false by (destruct (collisionType (bodies w (Rigid.bodyA w0))); easy).
  cbn [CollisionType_eqb].
  split; body_writes Hne'.
Qed.

Lemma applyFrictionImpulse_fixedB w0 w :
  Rigid.bodyA w0 <> Rigid.bodyB w0 ->
  collisionType (bodies w (Rigid.bodyA w0)) <> Fixed ->
  collisionType (bodies w (Rigid.bodyB w0)) = Fixed ->
  bodies (applyFrictionImpulse w0 w) (Rigid.bodyB w0) = bodies w (Rigid.bodyB w0).
Proof.
  intros Hne HA HB.
  assert (Hne' : Nat.eqb (Rigid.bodyB w0) (Rigid.bodyA w0) = false)
    by (apply Nat.eqb_neq; intros E; apply Hne; now symmetry).
  unfold applyFrictionImpulse. cbv zeta. rewrite HB.
  replace (CollisionType_eqb (collisionType (bodies w (Rigid.bodyA w0))) Fixed)
    with false by (destruct (collisionType (bodies w (Rigid.bodyA w0))); easy).
  cbn [CollisionType_eqb].
  body_writes Hne'.
Qed.

Lemma distinct_by_type (w : World) (a b : BodyRef) :
  collisionType (bodies w a) <> collisionType (bodies w b) -> a <> b.
Proof. intros H E. apply H. now rewrite E. Qed.

Lemma bodies_afterImpulses_fixedA (w : World) :
  collisionType (bodies w (Rigid.bodyA w)) = Fixed ->
  collisionType (bodies w (Rigid.bodyB w)) = Active ->
  bodies (afterImpulses w) (Rigid.bodyA w) = bodies w (Rigid.bodyA w)
  /\ totalMtv (bodies (afterImpulses w) (Rigid.bodyB w))
     = Vec.add (totalMtv (bodies w (Rigid.bodyB w))) (mtv (this w)).
Proof.
  intros HA HB.
  assert (Hne : Rigid.bodyA w <> Rigid.bodyB w)
    by (apply (distinct_by_type w); rewrite HA, HB; discriminate).
  destruct (applyNormalImpulse_fixedA w (afterPreEvents w) Hne HA) as [H1 H2].
  unfold afterImpulses. cbv zeta. destruct (frictionStep w).
  - rewrite applyFrictionImpulse_fixedA, totalMtv_applyFrictionImpulse;
      [ split; assumption | assumption | ].
    now rewrite collisionType_applyNormalImpulse.
  - split; assumption.
Qed.

Lemma bodies_afterImpulses_fixedB (w : World) :
  collisionType (bodies w (Rigid.bodyA w)) = Active ->
  collisionType (bodies w (Rigid.bodyB w)) = Fixed ->
  bodies (afterImpulses w) (Rigid.bodyB w) = bodies w (Rigid.bodyB w)
  /\ totalMtv (bodies (afterImpulses w) (Rigid.bodyA w))
     = Vec.add (totalMtv (bodies w (Rigid.bodyA w))) (Vec.negate (mtv (this w))).
Proof.
  intros HA HB.
  assert (Hne : Rigid.bodyA w <> Rigid.bodyB w)
    by (apply (distinct_by_type w); rewrite HA, HB; discriminate).
  assert (HA' : collisionType (bodies (afterPreEvents w) (Rigid.bodyA w)) <> Fixed)
    by (simpl; rewrite HA; discriminate).
  destruct (applyNormalImpulse_fixedB w (afterPreEvents w) Hne HA' HB) as [H1 H2].
  unfold afterImpulses. cbv zeta. destruct (frictionStep w).
  - rewrite applyFrictionImpulse_fixedB, totalMtv_applyFrictionImpulse;
      [ split; assumption | assumption | | ];
      now rewrite collisionType_applyNormalImpulse.
  - split; assumption.
Qed.

(** ** RigidBody: a Fixed body and an Active body *)

(** C4, as the code has it: of a Fixed body and an Active body, the Fixed
    one comes out of a RigidBody resolution as it went in (velocity,
    angular velocity, position, accumulated correction).  When the
    relative velocity along the normal is not positive, the accumulated
    correction of the Active body grows by the whole MTV if it is body B
    and by the whole negated MTV if it is body A; when it is positive, the
    accumulated correction of the Active body is left as it was. *)
Theorem rigid_fixed_pair (w : World)
    (H : (collisionType (bodies w (Rigid.bodyA w)) = Fixed
          /\ collisionType (bodies w (Rigid.bodyB w)) = Active)
         \/ (collisionType (bodies w (Rigid.bodyA w)) = Active
             /\ collisionType (bodies w (Rigid.bodyB w)) = Fixed)) :
  exists w',
    resolve CollisionResolutionStrategy.RigidBody w = Returned w'
    /\ (collisionType (bodies w (Rigid.bodyA w)) = Fixed ->
        bodies w' (Rigid.bodyA w) = bodies w (Rigid.bodyA w)
        /\ (Rigid.rvNormal w <= 0 ->
            totalMtv (bodies w' (Rigid.bodyB w))
            = Vec.add (totalMtv (bodies w (Rigid.bodyB w))) (mtv (this w)))
        /\ (Rigid.rvNormal w > 0 ->
            totalMtv (bodies w' (Rigid.bodyB w))
            = totalMtv (bodies w (Rigid.bodyB w))))
    /\ (collisionType (bodies w (Rigid.bodyB w)) = Fixed ->
        bodies w' (Rigid.bodyB w) = bodies w (Rigid.bodyB w)
        /\ (Rigid.rvNormal w <= 0 ->
            totalMtv (bodies w' (Rigid.bodyA w))
            = Vec.add (totalMtv (bodies w (Rigid.bodyA w)))
                      (Vec.negate (mtv (this w))))
        /\ (Rigid.rvNormal w > 0 ->
            totalMtv (bodies w' (Rigid.bodyA w))
            = totalMtv (bodies w (Rigid.bodyA w)))).
Proof.
  exists (_resolveRigidBodyCollision w). split; [reflexivity |].
  assert (Hne : Rigid.bodyA w <> Rigid.bodyB w)
    by (apply (distinct_by_type w); destruct H as [[-> ->] | [-> ->]]; discriminate).
  assert (HnA : collisionType (bodies w (Rigid.bodyA w)) <> Passive)
    by (destruct H as [[-> _] | [-> _]]; discriminate).
  assert (HnB : collisionType (bodies w (Rigid.bodyB w)) <> Passive)
    by (destruct H as [[_ ->] | [_ ->]]; discriminate).
  destruct (Rle_or_lt (Rigid.rvNormal w) 0) as [Hrv | Hrv].
  - rewrite rigid_applies by assumption. cbn [bodies].
    split; intros HF.
    + destruct H as [[HA HB] | [HA HB]]; [| congruence].
      destruct (bodies_afterImpulses_fixedA w HA HB) as [H1 H2].
      split; [exact H1 |]. split; [intros _; exact H2 | intros; exfalso; lra].
    + destruct H as [[HA HB] | [HA HB]]; [congruence |].
      destruct (bodies_afterImpulses_fixedB w HA HB) as [H1 H2].
      split; [exact H1 |]. split; [intros _; exact H2 | intros; exfalso; lra].
  - rewrite rigid_separating_returns by assumption. cbn [bodies].
    split; intros HF; (split; [reflexivity |]);
      (split; [intros; exfalso; lra | reflexivity]).
Qed.

Lemma rigid_fixed_pair_witness :
  exists w',
    resolve CollisionResolutionStrategy.RigidBody
      (Sample.pair Fixed Active Vec.Zero (mkVector (-1) 0) 0) = Returned w'
    /\ bodies w' 0%nat
       = bodies (Sample.pair Fixed Active Vec.Zero (mkVector (-1) 0) 0) 0%nat
    /\ totalMtv (bodies w' 1%nat) = Vec.add Vec.Zero (mkVector 2 0).
Proof.
  destruct (rigid_fixed_pair (Sample.pair Fixed Active Vec.Zero (mkVector (-1) 0) 0))
    as (w' & Hr & HA & _).
  - left. split; reflexivity.
  - exists w'. split; [exact Hr |].
    destruct HA as (H1 & H2 & _); [reflexivity |].
    split; [exact H1 |]. apply H2.
    rewrite Sample_rvNormal. simpl. lra.
Defined.

(** C4, as written, fails: when the Active body is moving away from the
    Fixed one the resolution returns before any correction is accumulated. *)
Lemma fixed_pair_as_written_fails :
  ~ fixedPairAsWritten (Sample.pair Fixed Active Vec.Zero (mkVector 1 0) 0).
Proof.
  intros H.
  destruct (H 0%nat 1%nat) as (w' & Hr & _ & Hm).
  - left. split; reflexivity.
  - reflexivity.
  - reflexivity.
  - unfold resolve in Hr. simpl Nat.eqb in Hr. cbv iota in Hr.
    rewrite rigid_separating_returns in Hr;
      [ | simpl; discriminate | rewrite Sample_rvNormal; simpl; lra ].
    injection Hr as <-. simpl in Hm.
    destruct Hm as [Hm | Hm]; apply (f_equal x) in Hm; simpl in Hm; lra.
Qed.

(** ** RigidBody: the velocities *)

Lemma add_scale_zero (v n : Vector) (k : R) : Vec.add v (Vec.scale n (k * 0)) = v.
Proof. apply Vector_eq; simpl; ring. Qed.

Lemma sub_scale_zero (v n : Vector) (k : R) : Vec.sub v (Vec.scale n (k * 0)) = v.
Proof. apply Vector_eq; simpl; ring. Qed.

Lemma add_scale_by_zero (v n : Vector) : Vec.add v (Vec.scale n 0) = v.
Proof. apply Vector_eq; simpl; ring. Qed.

Lemma sub_scale_by_zero (v n : Vector) : Vec.sub v (Vec.scale n 0) = v.
Proof. apply Vector_eq; simpl; ring. Qed.

(** The normal impulse on the velocities, in one formula for the three
    cases: a Fixed body has inverse mass 0. *)
Lemma vel_applyNormalImpulse w0 w :
  Rigid.bodyA w0 <> Rigid.bodyB w0 ->
  collisionType (bodies w (Rigid.bodyA w0)) = collisionType (bodies w0 (Rigid.bodyA w0)) ->
  collisionType (bodies w (Rigid.bodyB w0)) = collisionType (bodies w0 (Rigid.bodyB w0)) ->
  vel (bodies (applyNormalImpulse w0 w) (Rigid.bodyB w0))
  = Vec.add (vel (bodies w (Rigid.bodyB w0)))
            (Vec.scale (Rigid.normal w0) (Rigid.impulse w0 * Rigid.invMassB w0))
  /\ vel (bodies (applyNormalImpulse w0 w) (Rigid.bodyA w0))
     = Vec.sub (vel (bodies w (Rigid.bodyA w0)))
               (Vec.scale (Rigid.normal w0) (Rigid.impulse w0 * Rigid.invMassA w0)).
Proof.
  intros Hne HA HB.
  assert (Hab : Nat.eqb (Rigid.bodyA w0) (Rigid.bodyB w0) = false)
    by now apply Nat.eqb_neq.
  assert (Hba : Nat.eqb (Rigid.bodyB w0) (Rigid.bodyA w0) = false)
    by (apply Nat.eqb_neq; intros E; apply Hne; now symmetry).
  unfold applyNormalImpulse. cbv zeta.
  unfold Rigid.invMassA, Rigid.invMassB. rewrite <- HA, <- HB.
  destruct (CollisionType_eqb (collisionType (bodies w (Rigid.bodyA w0))) Fixed);
    [| destruct (CollisionType_eqb (collisionType (bodies w (Rigid.bodyB w0))) Fixed) ].
  - split.
    + unfold whenRotation, addMtv, vel_add, rx_sub, set_vel, set_rx, updBody.
      simpl. rewrite ?Nat.eqb_refl. split_ifs; simpl; rewrite ?Nat.eqb_refl; reflexivity.
    + unfold whenRotation, addMtv, vel_add, rx_sub, set_vel, set_rx, updBody.
      simpl. rewrite ?Hab. split_ifs; simpl; rewrite ?Hab; simpl;
        now rewrite sub_scale_zero.
  - split.
    + unfold whenRotation, addMtv, vel_sub, rx_add, set_vel, set_rx, updBody.
      simpl. rewrite ?Hba. split_ifs; simpl; rewrite ?Hba; simpl;
        now rewrite add_scale_zero.
    + unfold whenRotation, addMtv, vel_sub, rx_add, set_vel, set_rx, updBody.
      simpl. rewrite ?Nat.eqb_refl. split_ifs; simpl; rewrite ?Nat.eqb_refl; reflexivity.
  - split.
    + unfold whenRotation, addMtv, vel_add, vel_sub, rx_add, rx_sub,
        set_vel, set_rx, updBody.
      simpl. rewrite ?Nat.eqb_refl, ?Hab, ?Hba.
      split_ifs; simpl; rewrite ?Nat.eqb_refl, ?Hab, ?Hba; simpl;
        rewrite ?Nat.eqb_refl, ?Hab, ?Hba; reflexivity.
    + unfold whenRotation, addMtv, vel_add, vel_sub, rx_add, rx_sub,
        set_vel, set_rx, updBody.
      simpl. rewrite ?Nat.eqb_refl, ?Hab, ?Hba.
      split_ifs; simpl; rewrite ?Nat.eqb_refl, ?Hab, ?Hba; simpl;
        rewrite ?Nat.eqb_refl, ?Hab, ?Hba; reflexivity.
Qed.

(** The friction impulse on the velocities, likewise. *)
Lemma vel_applyFrictionImpulse w0 w :
  Rigid.bodyA w0 <> Rigid.bodyB w0 ->
  collisionType (bodies w (Rigid.bodyA w0)) = collisionType (bodies w0 (Rigid.bodyA w0)) ->
  collisionType (bodies w (Rigid.bodyB w0)) = collisionType (bodies w0 (Rigid.bodyB w0)) ->
  vel (bodies (applyFrictionImpulse w0 w) (Rigid.bodyB w0))
  = Vec.add (vel (bodies w (Rigid.bodyB w0)))
            (Vec.scale (Rigid.frictionImpulse w0) (Rigid.invMassB w0))
  /\ vel (bodies (applyFrictionImpulse w0 w) (Rigid.bodyA w0))
     = Vec.sub (vel (bodies w (Rigid.bodyA w0)))
               (Vec.scale (Rigid.frictionImpulse w0) (Rigid.invMassA w0)).
Proof.
  intros Hne HA HB.
  assert (Hab : Nat.eqb (Rigid.bodyA w0) (Rigid.bodyB w0) = false)
    by now apply Nat.eqb_neq.
  assert (Hba : Nat.eqb (Rigid.bodyB w0) (Rigid.bodyA w0) = false)
    by (apply Nat.eqb_neq; intros E; apply Hne; now symmetry).
  unfold applyFrictionImpulse. cbv zeta.
  unfold Rigid.invMassA, Rigid.invMassB. rewrite <- HA, <- HB.
  destruct (CollisionType_eqb (collisionType (bodies w (Rigid.bodyA w0))) Fixed);
    [| destruct (CollisionType_eqb (collisionType (bodies w (Rigid.bodyB w0))) Fixed) ].
  - split.
    + unfold whenRotation, vel_add, rx_add, set_vel, set_rx, updBody.
      simpl. rewrite ?Nat.eqb_refl. split_ifs; simpl; rewrite ?Nat.eqb_refl; reflexivity.
    + unfold whenRotation, vel_add, rx_add, set_vel, set_rx, updBody.
      simpl. rewrite ?Hab. split_ifs; simpl; rewrite ?Hab; simpl;
        now rewrite sub_scale_by_zero.
  - split.
    + unfold whenRotation, vel_sub, rx_sub, set_vel, set_rx, updBody.
      simpl. rewrite ?Hba. split_ifs; simpl; rewrite ?Hba; simpl;
        now rewrite add_scale_by_zero.
    + unfold whenRotation, vel_sub, rx_sub, set_vel, set_rx, updBody.
      simpl. rewrite ?Nat.eqb_refl. split_ifs; simpl; rewrite ?Nat.eqb_refl; reflexivity.
  - split.
    + unfold whenRotation, vel_add, vel_sub, rx_add, rx_sub, set_vel, set_rx, updBody.
      simpl. rewrite ?Nat.eqb_refl, ?Hab, ?Hba.
      split_ifs; simpl; rewrite ?Nat.eqb_refl, ?Hab, ?Hba; simpl;
        rewrite ?Nat.eqb_refl, ?Hab, ?Hba; reflexivity.
    + unfold whenRotation, vel_add, vel_sub, rx_add, rx_sub, set_vel, set_rx, updBody.
      simpl. rewrite ?Nat.eqb_refl, ?Hab, ?Hba.
      split_ifs; simpl; rewrite ?Nat.eqb_refl, ?Hab, ?Hba; simpl;
        rewrite ?Nat.eqb_refl, ?Hab, ?Hba; reflexivity.
Qed.

Lemma vel_afterImpulses (w : World) :
  Rigid.bodyA w <> Rigid.bodyB w ->
  vel (bodies (afterImpulses w) (Rigid.bodyB w))
  = (let v := Vec.add (vel (bodies w (Rigid.bodyB w)))
                (Vec.scale (Rigid.normal w) (Rigid.impulse w * Rigid.invMassB w)) in
     if frictionStep w
     then Vec.add v (Vec.scale (Rigid.frictionImpulse w) (Rigid.invMassB w))
     else v)
  /\ vel (bodies (afterImpulses w) (Rigid.bodyA w))
     = (let v := Vec.sub (vel (bodies w (Rigid.bodyA w)))
                   (Vec.scale (Rigid.normal w) (Rigid.impulse w * Rigid.invMassA w)) in
        if frictionStep w
        then Vec.sub v (Vec.scale (Rigid.frictionImpulse w) (Rigid.invMassA w))
        else v).
Proof.
  intros Hne. cbv zeta.
  destruct (vel_applyNormalImpulse w (afterPreEvents w) Hne eq_refl eq_refl)
    as [HB HA].
  unfold afterImpulses. cbv zeta. destruct (frictionStep w).
  - destruct (vel_applyFrictionImpulse w (applyNormalImpulse w (afterPreEvents w)) Hne)
      as [HB' HA'].
    + now rewrite collisionType_applyNormalImpulse.
    + now rewrite collisionType_applyNormalImpulse.
    + rewrite HB', HA', HB, HA. split; reflexivity.
  - rewrite HB, HA. split; reflexivity.
Qed.

(** ** RigidBody: the divisors *)

Lemma inverse_nonneg (ct : CollisionType) (m : R) :
  (ct <> Fixed -> 0 < m) ->
  0 <= (if CollisionType_eqb ct Fixed then 0 else 1 / m).
Proof.
  intros Hm. destruct ct; simpl; try lra;
    apply Rlt_le, Rdiv_lt_0_compat; try lra; apply Hm; discriminate.
Qed.

Lemma inverse_positive (ct : CollisionType) (m : R) :
  ct <> Fixed -> 0 < m ->
  0 < (if CollisionType_eqb ct Fixed then 0 else 1 / m).
Proof.
  intros Hct Hm. destruct ct; simpl; try (now elim Hct);
    apply Rdiv_lt_0_compat; lra.
Qed.

(** With the divisors of the data model and a pair that is not two Fixed
    bodies, both denominators are positive. *)
Lemma denominators_positive (w : World) :
  divisorsPositive w ->
  collisionType (bodies w (Rigid.bodyA w)) <> Fixed
  \/ collisionType (bodies w (Rigid.bodyB w)) <> Fixed ->
  0 < effectiveInverseMass w /\ 0 < frictionInverseMass w.
Proof.
  intros [HdA HdB] HnF.
  assert (H1 : 0 <= Rigid.invMassA w)
    by (apply inverse_nonneg; intros H; now apply HdA).
  assert (H2 : 0 <= Rigid.invMassB w)
    by (apply inverse_nonneg; intros H; now apply HdB).
  assert (H3 : 0 <= Rigid.invMoiA w)
    by (apply inverse_nonneg; intros H; now apply HdA).
  assert (H4 : 0 <= Rigid.invMoiB w)
    by (apply inverse_nonneg; intros H; now apply HdB).
  assert (H5 : 0 < Rigid.invMassA w + Rigid.invMassB w).
  { destruct HnF as [HF | HF].
    - assert (0 < Rigid.invMassA w)
        by (apply inverse_positive; [exact HF | now apply HdA]). lra.
    - assert (0 < Rigid.invMassB w)
        by (apply inverse_positive; [exact HF | now apply HdB]). lra. }
  pose proof (Rle_0_sqr (Rigid.raTangent w)) as S1.
  pose proof (Rle_0_sqr (Rigid.rbTangent w)) as S2.
  pose proof (Rle_0_sqr (Rigid.raNormal w)) as S3.
  pose proof (Rle_0_sqr (Rigid.rbNormal w)) as S4.
  unfold Rsqr in *. unfold effectiveInverseMass, frictionInverseMass.
  split; nra.
Qed.

(** ** RigidBody: the normal impulse *)

Lemma invMass_is_specInverse (ct : CollisionType) (m : R) :
  (if CollisionType_eqb ct Fixed then 0 else 1 / m) = specInverse ct m.
Proof. destruct ct; simpl; try reflexivity; unfold Rdiv; ring. Qed.

(** C5: in a RigidBody resolution that applies an impulse (two distinct
    bodies, neither Passive, relative velocity along the normal not
    positive), with the divisors of the data model and a pair that is not
    two Fixed bodies, so that the denominator is positive: the combined
    restitution and the combined friction are the minimum of the
    coefficients of the two bodies' colliders; the inverse mass and the
    inverse moment of inertia are 0 for a Fixed body and the reciprocal
    otherwise; the normal impulse is
    -(1 + restitution) * rvNormal / (invMassA + invMassB
      + invMoiA * raTangent^2 + invMoiB * rbTangent^2);
    and that impulse, scaled by the inverse mass, is what the resolution
    adds to the velocity of body B and takes from the velocity of body A
    along the unit normal, before any friction. *)
Theorem rigid_impulse_formula (w : World)
    (Hne : Rigid.bodyA w <> Rigid.bodyB w)
    (HA : collisionType (bodies w (Rigid.bodyA w)) <> Passive)
    (HB : collisionType (bodies w (Rigid.bodyB w)) <> Passive)
    (Hrv : Rigid.rvNormal w <= 0)
    (HnF : collisionType (bodies w (Rigid.bodyA w)) <> Fixed
           \/ collisionType (bodies w (Rigid.bodyB w)) <> Fixed)
    (Hdiv : divisorsPositive w) :
  let cA := colliders w (collider (bodies w (Rigid.bodyA w))) in
  let cB := colliders w (collider (bodies w (Rigid.bodyB w))) in
  let tA := collisionType (bodies w (Rigid.bodyA w)) in
  let tB := collisionType (bodies w (Rigid.bodyB w)) in
  0 < effectiveInverseMass w
  /\ Rigid.coefRestitution w = Rmin (restitution cA) (restitution cB)
  /\ Rigid.coefFriction w = Rmin (friction cA) (friction cB)
  /\ Rigid.invMassA w = specInverse tA (mass cA)
  /\ Rigid.invMassB w = specInverse tB (mass cB)
  /\ Rigid.invMoiA w = specInverse tA (moi cA)
  /\ Rigid.invMoiB w = specInverse tB (moi cB)
  /\ Rigid.impulse w
     = specImpulse (Rmin (restitution cA) (restitution cB)) (Rigid.rvNormal w)
         (specInverse tA (mass cA)) (specInverse tB (mass cB))
         (specInverse tA (moi cA)) (specInverse tB (moi cB))
         (Rigid.raTangent w) (Rigid.rbTangent w)
  /\ exists w',
       resolve CollisionResolutionStrategy.RigidBody w = Returned w'
       /\ vel (bodies w' (Rigid.bodyB w))
          = (let v := Vec.add (vel (bodies w (Rigid.bodyB w)))
                        (Vec.scale (Rigid.normal w)
                           (Rigid.impulse w * Rigid.invMassB w)) in
             if frictionStep w
             then Vec.add v (Vec.scale (Rigid.frictionImpulse w) (Rigid.invMassB w))
             else v)
       /\ vel (bodies w' (Rigid.bodyA w))
          = (let v := Vec.sub (vel (bodies w (Rigid.bodyA w)))
                        (Vec.scale (Rigid.normal w)
                           (Rigid.impulse w * Rigid.invMassA w)) in
             if frictionStep w
             then Vec.sub v (Vec.scale (Rigid.frictionImpulse w) (Rigid.invMassA w))
             else v).
Proof.
  intros cA cB tA tB.
  split; [apply (denominators_positive w Hdiv HnF) |].
  assert (EmA : Rigid.invMassA w = specInverse tA (mass cA))
    by apply invMass_is_specInverse.
  assert (EmB : Rigid.invMassB w = specInverse tB (mass cB))
    by apply invMass_is_specInverse.
  assert (EiA : Rigid.invMoiA w = specInverse tA (moi cA))
    by apply invMass_is_specInverse.
  assert (EiB : Rigid.invMoiB w = specInverse tB (moi cB))
    by apply invMass_is_specInverse.
  repeat (split; [first [reflexivity | assumption] |]).
  split.
  - unfold Rigid.impulse, specImpulse. rewrite EmA, EmB, EiA, EiB.
    fold cA cB. unfold Rigid.coefRestitution. fold cA cB.
    unfold Rdiv. f_equal; [ring | f_equal; ring].
  - exists (_resolveRigidBodyCollision w). split; [reflexivity |].
    rewrite rigid_applies by assumption. cbn [bodies].
    apply vel_afterImpulses. assumption.
Qed.

Lemma Sample_rvTangent ctA ctB vA vB fr :
  Rigid.rvTangent (Sample.pair ctA ctB vA vB fr) = y vA - y vB.
Proof.
  unfold Rigid.rvTangent, Rigid.tangent, Rigid.normal, Vec.normal. simpl.
  rewrite (normalize_of_unit (mkVector 1 0)) by (unfold Vec.dot; simpl; ring).
  unfold Vec.perpendicular. simpl.
  rewrite !(normalize_of_unit (mkVector 0 (- (1)))) by (unfold Vec.dot; simpl; ring).
  unfold Rigid.rv, Rigid.rb, Rigid.ra, Rigid.bodyA, Rigid.bodyB. simpl.
  unfold Vec.dot, Vec.sub, Vec.add, Vec.crossS. simpl.
  ring.
Qed.

Lemma Sample_coefFriction ctA ctB vA vB fr :
  Rigid.coefFriction (Sample.pair ctA ctB vA vB fr) = fr.
Proof. unfold Rigid.coefFriction. simpl. apply Rmin_left. lra. Qed.

Lemma Sample_divisorsPositive ctA ctB vA vB fr :
  divisorsPositive (Sample.pair ctA ctB vA vB fr).
Proof. split; intros _; simpl; lra. Qed.

Lemma rigid_impulse_formula_witness :
  Rigid.impulse (Sample.pair Active Active Vec.Zero (mkVector (-1) 0) 0)
  = specImpulse (Rmin 0 0)
      (Rigid.rvNormal (Sample.pair Active Active Vec.Zero (mkVector (-1) 0) 0))
      (/ 1) (/ 1) (/ 1) (/ 1)
      (Rigid.raTangent (Sample.pair Active Active Vec.Zero (mkVector (-1) 0) 0))
      (Rigid.rbTangent (Sample.pair Active Active Vec.Zero (mkVector (-1) 0) 0)).
Proof.
  destruct (rigid_impulse_formula
              (Sample.pair Active Active Vec.Zero (mkVector (-1) 0) 0))
    as (_ & _ & _ & _ & _ & _ & _ & H & _).
  - simpl. discriminate.
  - simpl. discriminate.
  - simpl. discriminate.
  - rewrite Sample_rvNormal. simpl. lra.
  - left. simpl. discriminate.
  - apply Sample_divisorsPositive.
  - exact H.
Defined.

(** ** RigidBody: the friction impulse *)

Lemma Rmin_nonneg (a b : R) : 0 <= a -> 0 <= b -> 0 <= Rmin a b.
Proof. intros Ha Hb. apply Rmin_glb; assumption. Qed.

Lemma distance_t (w : World) : Vec.distance (Rigid.t w) = 1.
Proof. apply distance_normalize. Qed.

(** Whatever the sign of the coefficients, the clamp of lines 196-200
    keeps the friction impulse within |impulse| * |coefFriction|. *)
Lemma frictionImpulse_bound_abs (w : World) :
  Vec.distance (Rigid.frictionImpulse w)
  <= Rabs (Rigid.impulse w) * Rabs (Rigid.coefFriction w).
Proof.
  unfold Rigid.frictionImpulse.
  pose proof (Rle_abs (Rigid.impulse w * Rigid.coefFriction w)) as Habs.
  rewrite Rabs_mult in Habs.
  destruct (Rleb (Rabs (Rigid.jt w)) (Rigid.impulse w * Rigid.coefFriction w)) eqn:E.
  - apply Rleb_true in E.
    rewrite distance_negate, distance_scale, distance_t. lra.
  - rewrite distance_scale, distance_t.
    replace (- Rigid.impulse w * Rigid.coefFriction w)
      with (- (Rigid.impulse w * Rigid.coefFriction w)) by ring.
    rewrite Rabs_Ropp, Rabs_mult. lra.
Qed.

Lemma frictionImpulse_bound (w : World) :
  0 <= Rigid.coefFriction w ->
  Vec.distance (Rigid.frictionImpulse w)
  <= Rabs (Rigid.impulse w) * Rigid.coefFriction w.
Proof.
  intros Hcf. pose proof (frictionImpulse_bound_abs w) as H.
  rewrite (Rabs_right (Rigid.coefFriction w)) in H by lra. exact H.
Qed.

(** C3: in a RigidBody resolution that reaches the friction step (two
    distinct bodies, neither Passive, not separating, combined friction
    and tangential relative velocity both nonzero), with friction
    coefficients that are not negative and divisors that are positive as
    the data model has them, and a pair that is not two Fixed bodies, the
    denominators of the normal and of the friction impulse are positive
    and the length of the friction impulse is at most the absolute value
    of the normal impulse times the combined friction coefficient, the
    minimum of the two; and that friction impulse, scaled by the inverse
    mass, is what the resolution adds to the velocity of body B and takes
    from the velocity of body A after the normal impulse. *)
Theorem rigid_friction_within_cone (w : World)
    (Hne : Rigid.bodyA w <> Rigid.bodyB w)
    (HA : collisionType (bodies w (Rigid.bodyA w)) <> Passive)
    (HB : collisionType (bodies w (Rigid.bodyB w)) <> Passive)
    (Hrv : Rigid.rvNormal w <= 0)
    (Hcf : Rigid.coefFriction w <> 0)
    (Hrt : Rigid.rvTangent w <> 0)
    (HfA : 0 <= friction (colliders w (collider (bodies w (Rigid.bodyA w)))))
    (HfB : 0 <= friction (colliders w (collider (bodies w (Rigid.bodyB w)))))
    (HnF : collisionType (bodies w (Rigid.bodyA w)) <> Fixed
           \/ collisionType (bodies w (Rigid.bodyB w)) <> Fixed)
    (Hdiv : divisorsPositive w) :
  0 < effectiveInverseMass w
  /\ 0 < frictionInverseMass w
  /\ Vec.distance (Rigid.frictionImpulse w)
     <= Rabs (Rigid.impulse w)
        * Rmin (friction (colliders w (collider (bodies w (Rigid.bodyA w)))))
               (friction (colliders w (collider (bodies w (Rigid.bodyB w)))))
  /\ exists w',
       resolve CollisionResolutionStrategy.RigidBody w = Returned w'
       /\ vel (bodies w' (Rigid.bodyB w))
          = Vec.add (Vec.add (vel (bodies w (Rigid.bodyB w)))
                       (Vec.scale (Rigid.normal w)
                          (Rigid.impulse w * Rigid.invMassB w)))
                    (Vec.scale (Rigid.frictionImpulse w) (Rigid.invMassB w))
       /\ vel (bodies w' (Rigid.bodyA w))
          = Vec.sub (Vec.sub (vel (bodies w (Rigid.bodyA w)))
                       (Vec.scale (Rigid.normal w)
                          (Rigid.impulse w * Rigid.invMassA w)))
                    (Vec.scale (Rigid.frictionImpulse w) (Rigid.invMassA w)).
Proof.
  destruct (denominators_positive w Hdiv HnF) as [HD HDt].
  split; [exact HD |]. split; [exact HDt |]. split.
  - apply (frictionImpulse_bound w). unfold Rigid.coefFriction.
    apply Rmin_nonneg; assumption.
  - exists (_resolveRigidBodyCollision w). split; [reflexivity |].
    rewrite rigid_applies by assumption. cbn [bodies].
    assert (Hstep : frictionStep w = true).
    { unfold frictionStep. apply andb_true_iff.
      split; apply truthy_true; assumption. }
    pose proof (vel_afterImpulses w Hne) as Hv. cbv zeta in Hv.
    rewrite Hstep in Hv. exact Hv.
Qed.

Lemma rigid_friction_within_cone_witness :
  Vec.distance
    (Rigid.frictionImpulse (Sample.pair Active Active Vec.Zero (mkVector (-1) 1) 1))
  <= Rabs (Rigid.impulse (Sample.pair Active Active Vec.Zero (mkVector (-1) 1) 1))
     * Rmin 1 1.
Proof.
  apply (rigid_friction_within_cone
           (Sample.pair Active Active Vec.Zero (mkVector (-1) 1) 1)).
  - simpl. discriminate.
  - simpl. discriminate.
  - simpl. discriminate.
  - rewrite Sample_rvNormal. simpl. lra.
  - rewrite Sample_coefFriction. lra.
  - rewrite Sample_rvTangent. simpl. lra.
  - simpl. lra.
  - simpl. lra.
  - left. simpl. discriminate.
  - apply Sample_divisorsPositive.
Defined.

(** * Further properties *)

(** ** Box: what one positional impulse leaves alone *)

Lemma applyBox_inactive a b m w r :
  collisionType (bodies w r) <> Active ->
  bodies (_applyBoxImpulse a b m w) r = bodies w r.
Proof.
  intros Hr. destruct (Nat.eq_dec r a) as [-> | Hne].
  - apply f_equal with (f := fun s => bodies s a). apply applyBox_skip.
    unfold receives.
    destruct (collisionType (bodies w a)); try reflexivity. now elim Hr.
  - now apply applyBox_other.
Qed.

Lemma applyBox_field {T : Type} (g : Body -> T) a b m w r :
  (forall o v, g (pushed o v) = g o) ->
  g (bodies (_applyBoxImpulse a b m w) r) = g (bodies w r).
Proof.
  intros Hg. destruct (Nat.eq_dec r a) as [-> | Hr].
  - destruct (receives w a b) eqn:E.
    + rewrite applyBox_receiver_pushed by assumption. apply Hg.
    + now rewrite applyBox_skip.
  - now rewrite applyBox_other.
Qed.

Lemma colliders_applyBoxImpulse a b m : keeps colliders (_applyBoxImpulse a b m).
Proof. intros w. unfold _applyBoxImpulse. split_ifs; reflexivity. Qed.

Lemma rotation_applyBoxImpulse a b m :
  keeps allowRigidBodyRotation (_applyBoxImpulse a b m).
Proof. intros w. unfold _applyBoxImpulse. split_ifs; reflexivity. Qed.

Lemma box_passive_skips (w : World) :
  collisionType (bodies w (Rigid.bodyA w)) = Passive
  \/ collisionType (bodies w (Rigid.bodyB w)) = Passive ->
  receives w (Rigid.bodyA w) (Rigid.bodyB w) = false
  /\ receives w (Rigid.bodyB w) (Rigid.bodyA w) = false.
Proof.
  unfold receives. intros [H | H]; rewrite H; cbn [CollisionType_eqb negb andb];
    split; try reflexivity; apply andb_false_r.
Qed.

(** The events of a whole Box resolution. *)
Lemma box_emitted (w : World) :
  emitted (_resolveBoxCollision w)
  = emitted w ++ boxPreEvents w
    ++ boxPostEvents w (Rigid.bodyA w) (Rigid.bodyB w) (Vec.negate (mtv (this w)))
    ++ boxPostEvents w (Rigid.bodyB w) (Rigid.bodyA w)
         (Vec.negate (Vec.negate (mtv (this w)))).
Proof.
  rewrite box_unfold, applyBox_emitted.
  rewrite receives_applyBox, splitMtv_applyBox, !applyBox_colliderOf.
  rewrite applyBox_emitted. cbn [emitted emit].
  rewrite <- !app_assoc. reflexivity.
Qed.

(** X1: under the Box strategy a pair with a Passive body, a self-pair
    included, has no body changed; the two pre-collision events are
    emitted and no post-collision event. *)
Theorem box_passive_pair (w : World)
    (HP : collisionType (bodies w (Rigid.bodyA w)) = Passive
          \/ collisionType (bodies w (Rigid.bodyB w)) = Passive) :
  exists w',
    resolve CollisionResolutionStrategy.Box w = Returned w'
    /\ sameBodies w w'
    /\ emittedSince w w' (boxPreEvents w).
Proof.
  exists (_resolveBoxCollision w). split; [reflexivity |].
  destruct (box_passive_skips w HP) as [HA HB].
  split.
  - intros r. rewrite box_unfold.
    rewrite applyBox_skip by (rewrite receives_applyBox; exact HB).
    rewrite applyBox_skip by exact HA. reflexivity.
  - unfold emittedSince. rewrite box_emitted. unfold boxPostEvents.
    rewrite HA, HB. now rewrite !app_nil_r.
Qed.

Lemma box_passive_pair_witness :
  exists w',
    resolve CollisionResolutionStrategy.Box
      (Sample.pair Active Passive (mkVector 1 0) Vec.Zero 0) = Returned w'
    /\ sameBodies (Sample.pair Active Passive (mkVector 1 0) Vec.Zero 0) w'.
Proof.
  destruct (box_passive_pair (Sample.pair Active Passive (mkVector 1 0) Vec.Zero 0))
    as (w' & Hr & Hs & _).
  - right. reflexivity.
  - exists w'. split; assumption.
Defined.

(** X2: the events of a Box resolution, for every pair: the two
    pre-collision events, then one post-collision event for body A if it
    receives the impulse (it is Active and B is not Passive), then one for
    body B if it does; each post-collision event is emitted on the
    receiving body's own collider and carries the translation that body
    was given. *)
Theorem box_event_trace (w : World) :
  exists w',
    resolve CollisionResolutionStrategy.Box w = Returned w'
    /\ emittedSince w w'
         (boxPreEvents w
          ++ boxPostEvents w (Rigid.bodyA w) (Rigid.bodyB w)
               (Vec.negate (mtv (this w)))
          ++ boxPostEvents w (Rigid.bodyB w) (Rigid.bodyA w) (mtv (this w))).
Proof.
  exists (_resolveBoxCollision w). split; [reflexivity |].
  unfold emittedSince. rewrite box_emitted, negate_negate. reflexivity.
Qed.

(** X3: a Box resolution changes no angular velocity, no accumulated
    correction, no kinematic class and no collider back-reference, and it
    leaves every body other than the two of the contact as it was. *)
Theorem box_frame (w : World) :
  exists w',
    resolve CollisionResolutionStrategy.Box w = Returned w'
    /\ (forall r, rx (bodies w' r) = rx (bodies w r)
                  /\ totalMtv (bodies w' r) = totalMtv (bodies w r)
                  /\ collisionType (bodies w' r) = collisionType (bodies w r)
                  /\ collider (bodies w' r) = collider (bodies w r))
    /\ (forall r, r <> Rigid.bodyA w -> r <> Rigid.bodyB w ->
                  bodies w' r = bodies w r).
Proof.
  exists (_resolveBoxCollision w). split; [reflexivity |]. split.
  - intros r. rewrite box_unfold.
    rewrite !(applyBox_field rx), !(applyBox_field totalMtv),
            !(applyBox_field collisionType), !(applyBox_field collider)
      by reflexivity.
    repeat split.
  - intros r HA HB. now apply box_other_bodies.
Qed.

(** X4: a Box resolution never changes a body that is not Active: a Fixed
    or a Passive body keeps its position and its velocity, in every pair. *)
Theorem box_moves_only_active (w : World) (r : BodyRef)
    (Hr : collisionType (bodies w r) <> Active) :
  exists w',
    resolve CollisionResolutionStrategy.Box w = Returned w'
    /\ bodies w' r = bodies w r.
Proof.
  exists (_resolveBoxCollision w). split; [reflexivity |].
  rewrite box_unfold.
  rewrite applyBox_inactive
    by (rewrite (applyBox_field collisionType) by reflexivity; exact Hr).
  rewrite applyBox_inactive by exact Hr. reflexivity.
Qed.

Lemma box_moves_only_active_witness :
  exists w',
    resolve CollisionResolutionStrategy.Box
      (Sample.pair Fixed Active (mkVector 1 0) (mkVector (-1) 0) 0) = Returned w'
    /\ bodies w' 0%nat
       = bodies (Sample.pair Fixed Active (mkVector 1 0) (mkVector (-1) 0) 0) 0%nat.
Proof.
  apply (box_moves_only_active
           (Sample.pair Fixed Active (mkVector 1 0) (mkVector (-1) 0) 0) 0%nat).
  simpl. discriminate.
Defined.

(** ** Box: separation and speed *)

(** X5: when a Box resolution moves anything (two distinct bodies, neither
    Passive, at least one Active), the position of body B relative to body
    A changes by exactly the MTV, whether the overlap is split between two
    Active bodies or given whole to the one Active body. *)
Theorem box_separates_by_mtv (w : World)
    (Hne : Rigid.bodyA w <> Rigid.bodyB w)
    (HA : collisionType (bodies w (Rigid.bodyA w)) <> Passive)
    (HB : collisionType (bodies w (Rigid.bodyB w)) <> Passive)
    (Hact : collisionType (bodies w (Rigid.bodyA w)) = Active
            \/ collisionType (bodies w (Rigid.bodyB w)) = Active) :
  exists w',
    resolve CollisionResolutionStrategy.Box w = Returned w'
    /\ Vec.sub (displacement w w' (Rigid.bodyB w))
               (displacement w w' (Rigid.bodyA w))
       = mtv (this w).
Proof.
  exists (_resolveBoxCollision w). split; [reflexivity |].
  unfold displacement.
  rewrite (box_bodyA_distinct w Hne), (box_bodyB_distinct w Hne).
  unfold receives, splitMtv.
  destruct (collisionType (bodies w (Rigid.bodyA w))) eqn:EA;
    destruct (collisionType (bodies w (Rigid.bodyB w))) eqn:EB;
    try (now elim HA); try (now elim HB);
    try (destruct Hact; discriminate);
    cbn [CollisionType_eqb andb negb];
    apply Vector_eq; simpl; lra.
Qed.

Lemma box_separates_by_mtv_witness :
  exists w',
    resolve CollisionResolutionStrategy.Box
      (Sample.pair Active Fixed Vec.Zero Vec.Zero 0) = Returned w'
    /\ Vec.sub (displacement (Sample.pair Active Fixed Vec.Zero Vec.Zero 0) w' 1%nat)
               (displacement (Sample.pair Active Fixed Vec.Zero Vec.Zero 0) w' 0%nat)
       = mkVector 2 0.
Proof.
  apply (box_separates_by_mtv (Sample.pair Active Fixed Vec.Zero Vec.Zero 0)).
  - simpl. discriminate.
  - simpl. discriminate.
  - simpl. discriminate.
  - left. reflexivity.
Defined.

Lemma cancelOpposing_shrinks (d v : Vector) :
  Vec.dot d d = 1 ->
  Vec.dot (cancelOpposing d v) (cancelOpposing d v) <= Vec.dot v v.
Proof.
  intros Hd. unfold cancelOpposing.
  destruct (Rltb (Vec.dot d v) 0); [| lra].
  unfold Vec.dot in *. simpl.
  replace ((x v + x d * (x d * (x v * -1) + y d * (y v * -1))) *
           (x v + x d * (x d * (x v * -1) + y d * (y v * -1))) +
           (y v + y d * (x d * (x v * -1) + y d * (y v * -1))) *
           (y v + y d * (x d * (x v * -1) + y d * (y v * -1))))
    with ((x v * x v + y v * y v)
          - (2 - (x d * x d + y d * y d))
            * ((x d * x v + y d * y v) * (x d * x v + y d * y v))) by ring.
  rewrite Hd.
  pose proof (Rle_0_sqr (x d * x v + y d * y v)) as Hsq. unfold Rsqr in Hsq.
  lra.
Qed.

Lemma cancelOpposing_idempotent (d v : Vector) :
  Vec.dot d d = 1 -> cancelOpposing d (cancelOpposing d v) = cancelOpposing d v.
Proof.
  intros Hd. apply cancelOpposing_aligned.
  destruct (Rlt_or_le (Vec.dot d v) 0) as [H | H].
  - rewrite cancelOpposing_along by assumption. lra.
  - now rewrite cancelOpposing_aligned.
Qed.

Lemma distance_as_dot (u : Vector) : Vec.distance u = sqrt (Vec.dot u u).
Proof. reflexivity. Qed.

Lemma applyBox_speed a b m w r :
  Vec.dot (vel (bodies (_applyBoxImpulse a b m w) r))
          (vel (bodies (_applyBoxImpulse a b m w) r))
  <= Vec.dot (vel (bodies w r)) (vel (bodies w r)).
Proof.
  destruct (Nat.eq_dec r a) as [-> | Hr].
  - destruct (receives w a b) eqn:E.
    + rewrite applyBox_receiver_pushed by assumption. cbn [pushed vel].
      apply cancelOpposing_shrinks, dot_normalize_self.
    + rewrite applyBox_skip by assumption. lra.
  - rewrite applyBox_other by assumption. lra.
Qed.

(** X6: a Box resolution never makes a body faster: for every pair and
    every body of the store, the speed after the resolution is at most the
    speed before it. *)
Theorem box_never_speeds_up (w : World) (r : BodyRef) :
  exists w',
    resolve CollisionResolutionStrategy.Box w = Returned w'
    /\ Vec.distance (vel (bodies w' r)) <= Vec.distance (vel (bodies w r)).
Proof.
  exists (_resolveBoxCollision w). split; [reflexivity |].
  rewrite !distance_as_dot. apply sqrt_le_1_alt.
  rewrite box_unfold.
  eapply Rle_trans; [apply applyBox_speed |].
  eapply Rle_trans; [apply applyBox_speed |].
  simpl. lra.
Qed.

(** ** Box: resolving the same contact again *)

Lemma colliders_resolveBoxCollision : keeps colliders _resolveBoxCollision.
Proof.
  intros w. rewrite box_unfold. now rewrite !colliders_applyBoxImpulse.
Qed.

Lemma collisionType_resolveBoxCollision w r :
  collisionType (bodies (_resolveBoxCollision w) r) = collisionType (bodies w r).
Proof.
  rewrite box_unfold. now rewrite !(applyBox_field collisionType) by reflexivity.
Qed.

Lemma bodyA_resolveBoxCollision w :
  Rigid.bodyA (_resolveBoxCollision w) = Rigid.bodyA w.
Proof.
  unfold Rigid.bodyA.
  now rewrite colliders_resolveBoxCollision, this_resolveBoxCollision.
Qed.

Lemma bodyB_resolveBoxCollision w :
  Rigid.bodyB (_resolveBoxCollision w) = Rigid.bodyB w.
Proof.
  unfold Rigid.bodyB.
  now rewrite colliders_resolveBoxCollision, this_resolveBoxCollision.
Qed.

Lemma receives_resolveBoxCollision w a b :
  receives (_resolveBoxCollision w) a b = receives w a b.
Proof. unfold receives. now rewrite !collisionType_resolveBoxCollision. Qed.

Lemma splitMtv_resolveBoxCollision w a b m :
  splitMtv (_resolveBoxCollision w) a b m = splitMtv w a b m.
Proof. unfold splitMtv. now rewrite !collisionType_resolveBoxCollision. Qed.

Lemma vel_pushed_twice (o : Body) (m : Vector) :
  vel (pushed (pushed o m) m) = vel (pushed o m).
Proof.
  cbn [pushed vel]. apply cancelOpposing_idempotent, dot_normalize_self.
Qed.

(** X7: resolving the same contact of two distinct bodies a second time
    under the Box strategy changes no velocity: once the component of a
    velocity against the push is cancelled, a further resolution finds
    nothing to cancel (the positions are pushed again). *)
Theorem box_velocity_settles (w : World)
    (Hne : Rigid.bodyA w <> Rigid.bodyB w) :
  exists w' w'',
    resolve CollisionResolutionStrategy.Box w = Returned w'
    /\ resolve CollisionResolutionStrategy.Box w' = Returned w''
    /\ forall r, vel (bodies w'' r) = vel (bodies w' r).
Proof.
  exists (_resolveBoxCollision w), (_resolveBoxCollision (_resolveBoxCollision w)).
  split; [reflexivity |]. split; [reflexivity |].
  set (w' := _resolveBoxCollision w).
  assert (EA : Rigid.bodyA w' = Rigid.bodyA w) by apply bodyA_resolveBoxCollision.
  assert (EB : Rigid.bodyB w' = Rigid.bodyB w) by apply bodyB_resolveBoxCollision.
  assert (Hne' : Rigid.bodyA w' <> Rigid.bodyB w') by (rewrite EA, EB; exact Hne).
  assert (Ht : this w' = this w) by apply this_resolveBoxCollision.
  intros r.
  destruct (Nat.eq_dec r (Rigid.bodyA w)) as [-> | HrA];
    [| destruct (Nat.eq_dec r (Rigid.bodyB w)) as [-> | HrB]].
  - rewrite <- EA at 1. rewrite (box_bodyA_distinct w' Hne').
    rewrite EA, EB, Ht. unfold w'.
    rewrite receives_resolveBoxCollision, splitMtv_resolveBoxCollision.
    rewrite (box_bodyA_distinct w Hne).
    destruct (receives w (Rigid.bodyA w) (Rigid.bodyB w)); [| reflexivity].
    apply vel_pushed_twice.
  - rewrite <- EB at 1. rewrite (box_bodyB_distinct w' Hne').
    rewrite EA, EB, Ht. unfold w'.
    rewrite receives_resolveBoxCollision, splitMtv_resolveBoxCollision.
    rewrite (box_bodyB_distinct w Hne).
    destruct (receives w (Rigid.bodyB w) (Rigid.bodyA w)); [| reflexivity].
    apply vel_pushed_twice.
  - rewrite (box_other_bodies w') by (rewrite ?EA, ?EB; assumption).
    reflexivity.
Qed.

Lemma box_velocity_settles_witness :
  exists w' w'',
    resolve CollisionResolutionStrategy.Box
      (Sample.pair Active Active (mkVector 1 0) Vec.Zero 0) = Returned w'
    /\ resolve CollisionResolutionStrategy.Box w' = Returned w''
    /\ forall r, vel (bodies w'' r) = vel (bodies w' r).
Proof.
  apply (box_velocity_settles (Sample.pair Active Active (mkVector 1 0) Vec.Zero 0)).
  simpl. discriminate.
Defined.

(** ** RigidBody: the four ways out *)

Lemma impulseApplied_true (w : World) :
  impulseApplied w = true ->
  Rigid.bodyA w <> Rigid.bodyB w
  /\ collisionType (bodies w (Rigid.bodyA w)) <> Passive
  /\ collisionType (bodies w (Rigid.bodyB w)) <> Passive
  /\ Rigid.rvNormal w <= 0.
Proof.
  unfold impulseApplied. rewrite !andb_true_iff, !negb_true_iff.
  intros [[[H1 H2] H3] H4]. repeat split.
  - now apply Nat.eqb_neq.
  - intros E. rewrite E in H2. discriminate.
  - intros E. rewrite E in H3. discriminate.
  - now apply Rgtb_false.
Qed.

Lemma impulseApplied_false (w : World) :
  Rigid.bodyA w <> Rigid.bodyB w ->
  impulseApplied w = false ->
  (collisionType (bodies w (Rigid.bodyA w)) = Passive
   \/ collisionType (bodies w (Rigid.bodyB w)) = Passive)
  \/ Rigid.rvNormal w > 0.
Proof.
  intros Hne. apply Nat.eqb_neq in Hne.
  unfold impulseApplied. rewrite Hne. cbn [negb andb].
  destruct (CollisionType_eqb (collisionType (bodies w (Rigid.bodyA w))) Passive) eqn:EA.
  - intros _. left. left. now apply CollisionType_eqb_eq.
  - destruct (CollisionType_eqb (collisionType (bodies w (Rigid.bodyB w))) Passive) eqn:EB.
    + intros _. left. right. now apply CollisionType_eqb_eq.
    + cbn [negb andb]. rewrite negb_false_iff. intros H. right.
      now apply Rgtb_true.
Qed.

Lemma rigid_cases (w : World) :
  _resolveRigidBodyCollision w
  = if Nat.eqb (Rigid.bodyA w) (Rigid.bodyB w) then w
    else if impulseApplied w
         then mkWorld (bodies (afterImpulses w)) (colliders (afterImpulses w))
                      (emitted (afterImpulses w) ++ rigidPostEvents w)
                      (allowRigidBodyRotation (afterImpulses w))
                      (this (afterImpulses w))
         else afterPreEvents w.
Proof.
  destruct (Nat.eqb (Rigid.bodyA w) (Rigid.bodyB w)) eqn:E.
  - apply Nat.eqb_eq in E. now apply rigid_self_pair_returns.
  - apply Nat.eqb_neq in E. destruct (impulseApplied w) eqn:Ei.
    + destruct (impulseApplied_true w Ei) as (_ & HA & HB & Hrv).
      now apply rigid_applies.
    + destruct (impulseApplied_false w E Ei) as [HP | Hsep].
      * now apply rigid_passive_returns.
      * now apply rigid_separating_returns.
Qed.

Lemma emitted_afterImpulses (w : World) :
  emitted (afterImpulses w) = emitted w ++ rigidPreEvents w.
Proof.
  unfold afterImpulses. cbv zeta.
  pose proof (keeps_applyNormalImpulse emitted
                (bodyBlind_vel _ emitted_bodyBlind) (bodyBlind_rx _ emitted_bodyBlind)
                (bodyBlind_mtv _ emitted_bodyBlind) w (afterPreEvents w)) as Hn.
  destruct (frictionStep w); [| exact Hn].
  pose proof (keeps_applyFrictionImpulse emitted
                (bodyBlind_vel _ emitted_bodyBlind) (bodyBlind_rx _ emitted_bodyBlind)
                w (applyNormalImpulse w (afterPreEvents w))) as Hf.
  rewrite Hf. exact Hn.
Qed.

Lemma colliders_afterImpulses (w : World) : colliders (afterImpulses w) = colliders w.
Proof.
  unfold afterImpulses. cbv zeta.
  pose proof (keeps_applyNormalImpulse colliders
                (bodyBlind_vel _ colliders_bodyBlind) (bodyBlind_rx _ colliders_bodyBlind)
                (bodyBlind_mtv _ colliders_bodyBlind) w (afterPreEvents w)) as Hn.
  destruct (frictionStep w); [| exact Hn].
  pose proof (keeps_applyFrictionImpulse colliders
                (bodyBlind_vel _ colliders_bodyBlind) (bodyBlind_rx _ colliders_bodyBlind)
                w (applyNormalImpulse w (afterPreEvents w))) as Hf.
  rewrite Hf. exact Hn.
Qed.

Lemma rotation_afterImpulses (w : World) :
  allowRigidBodyRotation (afterImpulses w) = allowRigidBodyRotation w.
Proof.
  unfold afterImpulses. cbv zeta.
  pose proof (keeps_applyNormalImpulse allowRigidBodyRotation
                (bodyBlind_vel _ rotation_bodyBlind) (bodyBlind_rx _ rotation_bodyBlind)
                (bodyBlind_mtv _ rotation_bodyBlind) w (afterPreEvents w)) as Hn.
  destruct (frictionStep w); [| exact Hn].
  pose proof (keeps_applyFrictionImpulse allowRigidBodyRotation
                (bodyBlind_vel _ rotation_bodyBlind) (bodyBlind_rx _ rotation_bodyBlind)
                w (applyNormalImpulse w (afterPreEvents w))) as Hf.
  rewrite Hf. exact Hn.
Qed.

Lemma this_afterImpulses (w : World) : this (afterImpulses w) = this w.
Proof.
  unfold afterImpulses. cbv zeta.
  pose proof (keeps_applyNormalImpulse this
                (bodyBlind_vel _ this_bodyBlind) (bodyBlind_rx _ this_bodyBlind)
                (bodyBlind_mtv _ this_bodyBlind) w (afterPreEvents w)) as Hn.
  destruct (frictionStep w); [| exact Hn].
  pose proof (keeps_applyFrictionImpulse this
                (bodyBlind_vel _ this_bodyBlind) (bodyBlind_rx _ this_bodyBlind)
                w (applyNormalImpulse w (afterPreEvents w))) as Hf.
  rewrite Hf. exact Hn.
Qed.

(** What the resolution leaves in the store, by the way it ends. *)
Lemma bodies_rigid (w : World) :
  bodies (_resolveRigidBodyCollision w)
  = if impulseApplied w then bodies (afterImpulses w) else bodies w.
Proof.
  rewrite rigid_cases.
  destruct (Nat.eqb (Rigid.bodyA w) (Rigid.bodyB w)) eqn:E.
  - unfold impulseApplied. rewrite E. reflexivity.
  - destruct (impulseApplied w); reflexivity.
Qed.

(** X8: the events of a RigidBody resolution, for every pair: none for a
    self-pair; otherwise the two pre-collision events, followed by the two
    post-collision events exactly when the impulse is applied, that is
    when neither body is Passive and the relative velocity along the
    normal is not positive. *)
Theorem rigid_event_trace (w : World) :
  exists w',
    resolve CollisionResolutionStrategy.RigidBody w = Returned w'
    /\ emittedSince w w'
         (if Nat.eqb (Rigid.bodyA w) (Rigid.bodyB w) then []
          else if impulseApplied w then rigidPreEvents w ++ rigidPostEvents w
               else rigidPreEvents w).
Proof.
  exists (_resolveRigidBodyCollision w). split; [reflexivity |].
  unfold emittedSince. rewrite rigid_cases.
  destruct (Nat.eqb (Rigid.bodyA w) (Rigid.bodyB w)).
  - now rewrite app_nil_r.
  - destruct (impulseApplied w); cbn [emitted afterPreEvents].
    + now rewrite emitted_afterImpulses, app_assoc.
    + reflexivity.
Qed.

(** ** RigidBody: what a resolution never writes *)

Lemma collider_velBlind r : velBlind (fun w => collider (bodies w r)).
Proof. intros b v w. now apply (field_updBody collider). Qed.
Lemma collider_rxBlind r : rxBlind (fun w => collider (bodies w r)).
Proof. intros b v w. now apply (field_updBody collider). Qed.
Lemma collider_mtvBlind r : mtvBlind (fun w => collider (bodies w r)).
Proof. intros b v w. now apply (field_updBody collider). Qed.

Lemma collisionType_applyFrictionImpulse w0 w r :
  collisionType (bodies (applyFrictionImpulse w0 w) r) = collisionType (bodies w r).
Proof.
  apply (keeps_applyFrictionImpulse (fun w => collisionType (bodies w r))
           (collisionType_velBlind r) (collisionType_rxBlind r)).
Qed.

Lemma collider_applyNormalImpulse w0 w r :
  collider (bodies (applyNormalImpulse w0 w) r) = collider (bodies w r).
Proof.
  apply (keeps_applyNormalImpulse (fun w => collider (bodies w r))
           (collider_velBlind r) (collider_rxBlind r) (collider_mtvBlind r)).
Qed.

Lemma collider_applyFrictionImpulse w0 w r :
  collider (bodies (applyFrictionImpulse w0 w) r) = collider (bodies w r).
Proof.
  apply (keeps_applyFrictionImpulse (fun w => collider (bodies w r))
           (collider_velBlind r) (collider_rxBlind r)).
Qed.

Lemma collisionType_afterImpulses w r :
  collisionType (bodies (afterImpulses w) r) = collisionType (bodies w r).
Proof.
  unfold afterImpulses. cbv zeta. destruct (frictionStep w);
    rewrite ?collisionType_applyFrictionImpulse, collisionType_applyNormalImpulse;
    reflexivity.
Qed.

Lemma collider_afterImpulses w r :
  collider (bodies (afterImpulses w) r) = collider (bodies w r).
Proof.
  unfold afterImpulses. cbv zeta. destruct (frictionStep w);
    rewrite ?collider_applyFrictionImpulse, collider_applyNormalImpulse;
    reflexivity.
Qed.

Ltac other_body HA HB :=
  unfold whenRotation, addMtv, vel_add, vel_sub, rx_add, rx_sub,
         set_vel, set_rx, updBody;
  simpl; rewrite ?HA, ?HB; simpl;
  split_ifs; simpl; rewrite ?HA, ?HB; simpl; try reflexivity.

Lemma applyNormalImpulse_others w0 w r :
  r <> Rigid.bodyA w0 -> r <> Rigid.bodyB w0 ->
  bodies (applyNormalImpulse w0 w) r = bodies w r.
Proof.
  intros HA HB. apply Nat.eqb_neq in HA, HB.
  unfold applyNormalImpulse. cbv zeta.
  destruct (CollisionType_eqb (collisionType (bodies w (Rigid.bodyA w0))) Fixed);
    [| destruct (CollisionType_eqb (collisionType (bodies w (Rigid.bodyB w0))) Fixed) ];
    other_body HA HB.
Qed.

Lemma applyFrictionImpulse_others w0 w r :
  r <> Rigid.bodyA w0 -> r <> Rigid.bodyB w0 ->
  bodies (applyFrictionImpulse w0 w) r = bodies w r.
Proof.
  intros HA HB. apply Nat.eqb_neq in HA, HB.
  unfold applyFrictionImpulse. cbv zeta.
  destruct (CollisionType_eqb (collisionType (bodies w (Rigid.bodyA w0))) Fixed);
    [| destruct (CollisionType_eqb (collisionType (bodies w (Rigid.bodyB w0))) Fixed) ];
    other_body HA HB.
Qed.

Lemma afterImpulses_others w r :
  r <> Rigid.bodyA w -> r <> Rigid.bodyB w ->
  bodies (afterImpulses w) r = bodies w r.
Proof.
  intros HA HB. unfold afterImpulses. cbv zeta. destruct (frictionStep w);
    rewrite ?applyFrictionImpulse_others, applyNormalImpulse_others by assumption;
    reflexivity.
Qed.

(** X9: a RigidBody resolution never writes a position, a kinematic class
    or a collider back-reference, whatever the pair: the overlap is only
    recorded in the accumulated correction.  Every body other than the two
    of the contact is left as it was. *)
Theorem rigid_frame (w : World) :
  exists w',
    resolve CollisionResolutionStrategy.RigidBody w = Returned w'
    /\ (forall r, pos (bodies w' r) = pos (bodies w r)
                  /\ collisionType (bodies w' r) = collisionType (bodies w r)
                  /\ collider (bodies w' r) = collider (bodies w r))
    /\ (forall r, r <> Rigid.bodyA w -> r <> Rigid.bodyB w ->
                  bodies w' r = bodies w r).
Proof.
  exists (_resolveRigidBodyCollision w). split; [reflexivity |].
  rewrite bodies_rigid. destruct (impulseApplied w).
  - split.
    + intros r. rewrite pos_afterImpulses, collisionType_afterImpulses,
        collider_afterImpulses. repeat split.
    + intros r HA HB. now apply afterImpulses_others.
  - split; [intros r; repeat split | reflexivity].
Qed.

Lemma rx_applyNormalImpulse_off w0 w r :
  allowRigidBodyRotation w = false ->
  rx (bodies (applyNormalImpulse w0 w) r) = rx (bodies w r).
Proof.
  intros Hoff. unfold applyNormalImpulse. cbv zeta.
  unfold whenRotation. cbn [allowRigidBodyRotation vel_add vel_sub set_vel updBody].
  rewrite Hoff.
  split_ifs; unfold addMtv, vel_add, vel_sub, set_vel;
    rewrite ?(field_updBody rx) by reflexivity; reflexivity.
Qed.

Lemma rx_applyFrictionImpulse_off w0 w r :
  allowRigidBodyRotation w = false ->
  rx (bodies (applyFrictionImpulse w0 w) r) = rx (bodies w r).
Proof.
  intros Hoff. unfold applyFrictionImpulse. cbv zeta.
  unfold whenRotation. cbn [allowRigidBodyRotation vel_add vel_sub set_vel updBody].
  rewrite Hoff.
  split_ifs; unfold vel_add, vel_sub, set_vel;
    rewrite ?(field_updBody rx) by reflexivity; reflexivity.
Qed.

(** X10: with [Physics.allowRigidBodyRotation] switched off, a RigidBody
    resolution changes no angular velocity. *)
Theorem rigid_no_rotation_when_disabled (w : World)
    (Hoff : allowRigidBodyRotation w = false) :
  exists w',
    resolve CollisionResolutionStrategy.RigidBody w = Returned w'
    /\ forall r, rx (bodies w' r) = rx (bodies w r).
Proof.
  exists (_resolveRigidBodyCollision w). split; [reflexivity |].
  intros r. rewrite bodies_rigid. destruct (impulseApplied w); [| reflexivity].
  unfold afterImpulses. cbv zeta.
  assert (Hn : rx (bodies (applyNormalImpulse w (afterPreEvents w)) r)
               = rx (bodies w r))
    by (apply (rx_applyNormalImpulse_off w (afterPreEvents w) r); exact Hoff).
  destruct (frictionStep w); [| exact Hn].
  rewrite rx_applyFrictionImpulse_off; [exact Hn |].
  pose proof (keeps_applyNormalImpulse allowRigidBodyRotation
                (bodyBlind_vel _ rotation_bodyBlind) (bodyBlind_rx _ rotation_bodyBlind)
                (bodyBlind_mtv _ rotation_bodyBlind) w (afterPreEvents w)) as Hk.
  rewrite Hk. exact Hoff.
Qed.

Lemma rigid_no_rotation_when_disabled_witness :
  exists w',
    resolve CollisionResolutionStrategy.RigidBody
      (Sample.pair Active Active Vec.Zero (mkVector (-1) 1) 1) = Returned w'
    /\ forall r, rx (bodies w' r)
                 = rx (bodies (Sample.pair Active Active Vec.Zero (mkVector (-1) 1) 1) r).
Proof.
  apply (rigid_no_rotation_when_disabled
           (Sample.pair Active Active Vec.Zero (mkVector (-1) 1) 1)).
  reflexivity.
Defined.

(** ** RigidBody: the share of the correction *)

Lemma not_fixed_eqb (ct : CollisionType) :
  ct <> Fixed -> CollisionType_eqb ct Fixed = false.
Proof. destruct ct; try reflexivity. intros H; now elim H. Qed.

Lemma applyNormalImpulse_neither w0 w :
  Rigid.bodyA w0 <> Rigid.bodyB w0 ->
  collisionType (bodies w (Rigid.bodyA w0)) <> Fixed ->
  collisionType (bodies w (Rigid.bodyB w0)) <> Fixed ->
  totalMtv (bodies (applyNormalImpulse w0 w) (Rigid.bodyB w0))
  = Vec.add (totalMtv (bodies w (Rigid.bodyB w0))) (Vec.scale (mtv (this w0)) 0.5)
  /\ totalMtv (bodies (applyNormalImpulse w0 w) (Rigid.bodyA w0))
     = Vec.add (totalMtv (bodies w (Rigid.bodyA w0)))
               (Vec.scale (mtv (this w0)) (-0.5)).
Proof.
  intros Hne HA HB.
  assert (Hab : Nat.eqb (Rigid.bodyA w0) (Rigid.bodyB w0) = false)
    by now apply Nat.eqb_neq.
  assert (Hba : Nat.eqb (Rigid.bodyB w0) (Rigid.bodyA w0) = false)
    by (apply Nat.eqb_neq; intros E; apply Hne; now symmetry).
  unfold applyNormalImpulse. cbv zeta.
  rewrite (not_fixed_eqb _ HA), (not_fixed_eqb _ HB).
  split;
    unfold whenRotation, addMtv, vel_add, vel_sub, rx_add, rx_sub,
      set_vel, set_rx, updBody;
    simpl; rewrite ?Nat.eqb_refl, ?Hab, ?Hba;
    split_ifs; simpl; rewrite ?Nat.eqb_refl, ?Hab, ?Hba; simpl;
    rewrite ?Nat.eqb_refl, ?Hab, ?Hba; reflexivity.
Qed.

(** X11: when the impulse is applied to two distinct Active bodies, the
    MTV is split between their accumulated corrections: body B is given
    half of it and body A the opposite half. *)
Theorem rigid_splits_correction (w : World)
    (Hne : Rigid.bodyA w <> Rigid.bodyB w)
    (HA : collisionType (bodies w (Rigid.bodyA w)) = Active)
    (HB : collisionType (bodies w (Rigid.bodyB w)) = Active)
    (Hrv : Rigid.rvNormal w <= 0) :
  exists w',
    resolve CollisionResolutionStrategy.RigidBody w = Returned w'
    /\ totalMtv (bodies w' (Rigid.bodyB w))
       = Vec.add (totalMtv (bodies w (Rigid.bodyB w))) (Vec.scale (mtv (this w)) 0.5)
    /\ totalMtv (bodies w' (Rigid.bodyA w))
       = Vec.add (totalMtv (bodies w (Rigid.bodyA w)))
                 (Vec.scale (mtv (this w)) (-0.5)).
Proof.
  exists (_resolveRigidBodyCollision w). split; [reflexivity |].
  rewrite rigid_applies; try assumption; try (rewrite ?HA, ?HB; discriminate).
  cbn [bodies]. unfold afterImpulses. cbv zeta.
  assert (Hn := applyNormalImpulse_neither w (afterPreEvents w) Hne).
  destruct Hn as [HnB HnA];
    try (cbn [afterPreEvents bodies]; rewrite ?HA, ?HB; discriminate).
  destruct (frictionStep w); rewrite ?totalMtv_applyFrictionImpulse;
    split; assumption.
Qed.

Lemma rigid_splits_correction_witness :
  exists w',
    resolve CollisionResolutionStrategy.RigidBody
      (Sample.pair Active Active Vec.Zero (mkVector (-1) 0) 0) = Returned w'
    /\ totalMtv (bodies w' 1%nat)
       = Vec.add Vec.Zero (Vec.scale (mkVector 2 0) 0.5)
    /\ totalMtv (bodies w' 0%nat)
       = Vec.add Vec.Zero (Vec.scale (mkVector 2 0) (-0.5)).
Proof.
  apply (rigid_splits_correction
           (Sample.pair Active Active Vec.Zero (mkVector (-1) 0) 0)).
  - simpl. discriminate.
  - reflexivity.
  - reflexivity.
  - rewrite Sample_rvNormal. simpl. lra.
Defined.

(** X12: a pair of two distinct Fixed bodies that is not separating takes
    the branch of a Fixed body A (line 158): body A is left as it was, and
    the accumulated correction of body B grows by the whole MTV although
    body B is Fixed too. *)
Theorem rigid_two_fixed_bodies (w : World)
    (Hne : Rigid.bodyA w <> Rigid.bodyB w)
    (HA : collisionType (bodies w (Rigid.bodyA w)) = Fixed)
    (HB : collisionType (bodies w (Rigid.bodyB w)) = Fixed)
    (Hrv : Rigid.rvNormal w <= 0) :
  exists w',
    resolve CollisionResolutionStrategy.RigidBody w = Returned w'
    /\ bodies w' (Rigid.bodyA w) = bodies w (Rigid.bodyA w)
    /\ totalMtv (bodies w' (Rigid.bodyB w))
       = Vec.add (totalMtv (bodies w (Rigid.bodyB w))) (mtv (this w)).
Proof.
  exists (_resolveRigidBodyCollision w). split; [reflexivity |].
  rewrite rigid_applies; try assumption; try (rewrite ?HA, ?HB; discriminate).
  cbn [bodies]. unfold afterImpulses. cbv zeta.
  destruct (applyNormalImpulse_fixedA w (afterPreEvents w) Hne HA) as [H1 H2].
  destruct (frictionStep w).
  - rewrite applyFrictionImpulse_fixedA, totalMtv_applyFrictionImpulse;
      [ split; assumption | assumption | ].
    now rewrite collisionType_applyNormalImpulse.
  - split; assumption.
Qed.

Lemma rigid_two_fixed_bodies_witness :
  exists w',
    resolve CollisionResolutionStrategy.RigidBody
      (Sample.pair Fixed Fixed Vec.Zero Vec.Zero 0) = Returned w'
    /\ bodies w' 0%nat = bodies (Sample.pair Fixed Fixed Vec.Zero Vec.Zero 0) 0%nat
    /\ totalMtv (bodies w' 1%nat) = Vec.add Vec.Zero (mkVector 2 0).
Proof.
  apply (rigid_two_fixed_bodies (Sample.pair Fixed Fixed Vec.Zero Vec.Zero 0)).
  - simpl. discriminate.
  - reflexivity.
  - reflexivity.
  - rewrite Sample_rvNormal. simpl. lra.
Defined.

(** ** RigidBody: momentum and the sign of the impulse *)

(** X13: when the impulse is applied to two distinct Active bodies whose
    masses are not zero, the resolution conserves linear momentum:
    massA * velA + massB * velB is the same after as before, friction
    included. *)
Theorem rigid_conserves_momentum (w : World)
    (Hne : Rigid.bodyA w <> Rigid.bodyB w)
    (HA : collisionType (bodies w (Rigid.bodyA w)) = Active)
    (HB : collisionType (bodies w (Rigid.bodyB w)) = Active)
    (Hrv : Rigid.rvNormal w <= 0)
    (HmA : mass (colliders w (collider (bodies w (Rigid.bodyA w)))) <> 0)
    (HmB : mass (colliders w (collider (bodies w (Rigid.bodyB w)))) <> 0) :
  exists w',
    resolve CollisionResolutionStrategy.RigidBody w = Returned w'
    /\ Vec.add
         (Vec.scale (vel (bodies w' (Rigid.bodyA w)))
                    (mass (colliders w (collider (bodies w (Rigid.bodyA w))))))
         (Vec.scale (vel (bodies w' (Rigid.bodyB w)))
                    (mass (colliders w (collider (bodies w (Rigid.bodyB w))))))
       = Vec.add
           (Vec.scale (vel (bodies w (Rigid.bodyA w)))
                      (mass (colliders w (collider (bodies w (Rigid.bodyA w))))))
           (Vec.scale (vel (bodies w (Rigid.bodyB w)))
                      (mass (colliders w (collider (bodies w (Rigid.bodyB w)))))).
Proof.
  exists (_resolveRigidBodyCollision w). split; [reflexivity |].
  rewrite rigid_applies; try assumption; try (rewrite ?HA, ?HB; discriminate).
  cbn [bodies].
  destruct (vel_afterImpulses w Hne) as [HvB HvA]. rewrite HvB, HvA. cbv zeta.
  unfold Rigid.invMassA, Rigid.invMassB. rewrite HA, HB.
  cbn [CollisionType_eqb].
  destruct (frictionStep w); apply Vector_eq; simpl; field;
    repeat split; assumption.
Qed.

Lemma rigid_conserves_momentum_witness :
  exists w',
    resolve CollisionResolutionStrategy.RigidBody
      (Sample.pair Active Active Vec.Zero (mkVector (-1) 1) 1) = Returned w'
    /\ Vec.add (Vec.scale (vel (bodies w' 0%nat)) 1)
               (Vec.scale (vel (bodies w' 1%nat)) 1)
       = Vec.add (Vec.scale Vec.Zero 1) (Vec.scale (mkVector (-1) 1) 1).
Proof.
  apply (rigid_conserves_momentum
           (Sample.pair Active Active Vec.Zero (mkVector (-1) 1) 1)).
  - simpl. discriminate.
  - reflexivity.
  - reflexivity.
  - rewrite Sample_rvNormal. simpl. lra.
  - simpl. lra.
  - simpl. lra.
Defined.

Lemma normal_unit (w : World) : Vec.dot (Rigid.normal w) (Rigid.normal w) = 1.
Proof. apply dot_normalize_self. Qed.

Lemma perpendicular_unit (u : Vector) :
  Vec.dot u u = 1 -> Vec.dot (Vec.perpendicular u) (Vec.perpendicular u) = 1.
Proof. unfold Vec.dot. simpl. intros H. rewrite <- H. ring. Qed.

Lemma tangent_is_perpendicular (w : World) :
  Rigid.tangent w = Vec.perpendicular (Rigid.normal w).
Proof.
  unfold Rigid.tangent, Vec.normal.
  rewrite !normalize_of_unit; try reflexivity;
    try rewrite normalize_of_unit;
    apply perpendicular_unit, normal_unit.
Qed.

Lemma distance_zero (u : Vector) : Vec.distance u = 0 -> x u = 0 /\ y u = 0.
Proof.
  intros H. pose proof (distance_sqr u) as Hs. rewrite H in Hs.
  split; nra.
Qed.

Lemma dot_add_l (u v n : Vector) : Vec.dot (Vec.add u v) n = Vec.dot u n + Vec.dot v n.
Proof. unfold Vec.dot. simpl. ring. Qed.

Lemma dot_sub_l (u v n : Vector) : Vec.dot (Vec.sub u v) n = Vec.dot u n - Vec.dot v n.
Proof. unfold Vec.dot. simpl. ring. Qed.

Lemma dot_scale_l (u n : Vector) (k : R) : Vec.dot (Vec.scale u k) n = k * Vec.dot u n.
Proof. unfold Vec.dot. simpl. ring. Qed.

Lemma rejection_across (r n : Vector) :
  Vec.dot n n = 1 ->
  Vec.dot (Vec.sub r (Vec.scale n (Vec.dot r n))) n = 0.
Proof.
  destruct r as [rx0 ry0], n as [nx ny]. unfold Vec.dot. simpl. intros H.
  replace ((rx0 - nx * (rx0 * nx + ry0 * ny)) * nx
           + (ry0 - ny * (rx0 * nx + ry0 * ny)) * ny)
    with ((rx0 * nx + ry0 * ny) * (1 - (nx * nx + ny * ny))) by ring.
  rewrite H. ring.
Qed.

Lemma rejection_zero (r n : Vector) :
  x (Vec.sub r (Vec.scale n (Vec.dot r n))) = 0 ->
  y (Vec.sub r (Vec.scale n (Vec.dot r n))) = 0 ->
  Vec.dot r (Vec.perpendicular n) = 0.
Proof.
  destruct r as [rx0 ry0], n as [nx ny]. unfold Vec.dot. simpl. intros Hx Hy.
  replace rx0 with (nx * (rx0 * nx + ry0 * ny)) at 1 by lra.
  replace ry0 with (ny * (rx0 * nx + ry0 * ny)) at 2 by lra.
  ring.
Qed.

Lemma dot_normalize_l (u n : Vector) :
  0 < Vec.distance u ->
  Vec.dot (Vec.normalize u) n = Vec.dot u n / Vec.distance u.
Proof.
  intros Hd. unfold Vec.normalize.
  replace (Rgtb (Vec.distance u) 0) with true by (symmetry; now apply Rgtb_true).
  unfold Vec.dot. simpl. field. lra.
Qed.

(** The direction of the friction impulse is across the normal. *)
Lemma t_across_normal (w : World) :
  Rigid.rvTangent w <> 0 -> Vec.dot (Rigid.t w) (Rigid.normal w) = 0.
Proof.
  intros Hrt. pose proof (normal_unit w) as Hn.
  unfold Rigid.t.
  set (u := Vec.sub (Rigid.rv w)
              (Vec.scale (Rigid.normal w) (Vec.dot (Rigid.rv w) (Rigid.normal w)))).
  pose proof (distance_nonneg u) as Hd.
  destruct (Rle_lt_or_eq_dec _ _ Hd) as [Hpos | H0].
  - rewrite dot_normalize_l by assumption.
    unfold u. rewrite rejection_across by assumption. unfold Rdiv. ring.
  - exfalso. symmetry in H0. destruct (distance_zero u H0) as [Hx Hy].
    apply Hrt. unfold Rigid.rvTangent. rewrite tangent_is_perpendicular.
    now apply rejection_zero.
Qed.

Lemma frictionImpulse_across_normal (w : World) :
  Rigid.rvTangent w <> 0 ->
  Vec.dot (Rigid.frictionImpulse w) (Rigid.normal w) = 0.
Proof.
  intros Hrt. pose proof (t_across_normal w Hrt) as Ht.
  unfold Rigid.frictionImpulse, Vec.negate.
  destruct (Rleb _ _); rewrite ?dot_scale_l, Ht; ring.
Qed.

(** The velocities along the normal once the impulses are applied: the
    friction impulse does not show. *)
Lemma vel_along_normal (w : World) :
  Rigid.bodyA w <> Rigid.bodyB w ->
  Vec.dot (vel (bodies (afterImpulses w) (Rigid.bodyB w))) (Rigid.normal w)
  = Vec.dot (vel (bodies w (Rigid.bodyB w))) (Rigid.normal w)
    + Rigid.impulse w * Rigid.invMassB w
  /\ Vec.dot (vel (bodies (afterImpulses w) (Rigid.bodyA w))) (Rigid.normal w)
     = Vec.dot (vel (bodies w (Rigid.bodyA w))) (Rigid.normal w)
       - Rigid.impulse w * Rigid.invMassA w.
Proof.
  intros Hne. destruct (vel_afterImpulses w Hne) as [HB HA]. rewrite HB, HA.
  cbv zeta. pose proof (normal_unit w) as Hn.
  destruct (frictionStep w) eqn:E.
  - unfold frictionStep in E. apply andb_true_iff in E. destruct E as [_ E].
    apply truthy_true in E.
    pose proof (frictionImpulse_across_normal w E) as Hf.
    rewrite !dot_add_l, !dot_sub_l, !dot_scale_l, Hn, Hf. split; ring.
  - rewrite !dot_add_l, !dot_sub_l, !dot_scale_l, Hn. split; ring.
Qed.

Lemma invMass_nonneg (ct : CollisionType) (m : R) :
  0 < m -> 0 <= (if CollisionType_eqb ct Fixed then 0 else 1 / m).
Proof.
  intros Hm. destruct (CollisionType_eqb ct Fixed); [lra |].
  apply Rlt_le. apply Rdiv_lt_0_compat; lra.
Qed.

Lemma invMass_pos (ct : CollisionType) (m : R) :
  0 < m -> ct <> Fixed -> 0 < (if CollisionType_eqb ct Fixed then 0 else 1 / m).
Proof.
  intros Hm Hct. rewrite (not_fixed_eqb _ Hct). apply Rdiv_lt_0_compat; lra.
Qed.

Lemma effectiveInverseMass_pos (w : World) :
  0 < mass (colliders w (collider (bodies w (Rigid.bodyA w)))) ->
  0 < mass (colliders w (collider (bodies w (Rigid.bodyB w)))) ->
  0 < moi (colliders w (collider (bodies w (Rigid.bodyA w)))) ->
  0 < moi (colliders w (collider (bodies w (Rigid.bodyB w)))) ->
  collisionType (bodies w (Rigid.bodyA w)) <> Fixed
  \/ collisionType (bodies w (Rigid.bodyB w)) <> Fixed ->
  0 <= Rigid.invMassA w /\ 0 <= Rigid.invMassB w /\ 0 < effectiveInverseMass w.
Proof.
  intros HmA HmB HiA HiB HnF.
  pose proof (invMass_nonneg (collisionType (bodies w (Rigid.bodyA w))) _ HmA) as H1.
  pose proof (invMass_nonneg (collisionType (bodies w (Rigid.bodyB w))) _ HmB) as H2.
  pose proof (invMass_nonneg (collisionType (bodies w (Rigid.bodyA w))) _ HiA) as H3.
  pose proof (invMass_nonneg (collisionType (bodies w (Rigid.bodyB w))) _ HiB) as H4.
  fold (Rigid.invMassA w) in H1. fold (Rigid.invMassB w) in H2.
  fold (Rigid.invMoiA w) in H3. fold (Rigid.invMoiB w) in H4.
  assert (H5 : 0 <= Rigid.invMoiA w * Rigid.raTangent w * Rigid.raTangent w)
    by (pose proof (Rle_0_sqr (Rigid.raTangent w)) as Hs; unfold Rsqr in Hs; nra).
  assert (H6 : 0 <= Rigid.invMoiB w * Rigid.rbTangent w * Rigid.rbTangent w)
    by (pose proof (Rle_0_sqr (Rigid.rbTangent w)) as Hs; unfold Rsqr in Hs; nra).
  split; [exact H1 |]. split; [exact H2 |].
  unfold effectiveInverseMass.
  destruct HnF as [HF | HF].
  - pose proof (invMass_pos _ _ HmA HF) as Hp. fold (Rigid.invMassA w) in Hp. lra.
  - pose proof (invMass_pos _ _ HmB HF) as Hp. fold (Rigid.invMassB w) in Hp. lra.
Qed.

Lemma impulse_as_quotient (w : World) :
  Rigid.impulse w
  = - ((1 + Rigid.coefRestitution w) * Rigid.rvNormal w) / effectiveInverseMass w.
Proof. reflexivity. Qed.

(** X14: with colliders as the data model has them (masses and moments of
    inertia positive, restitution not negative) and at least one body not
    Fixed, the normal impulse of a resolution that applies it is not
    negative, and the resolution never pulls the pair together: along the
    unit normal the velocity of body B does not decrease and the velocity
    of body A does not increase, friction included. *)
Theorem rigid_impulse_pushes_apart (w : World)
    (Hne : Rigid.bodyA w <> Rigid.bodyB w)
    (HA : collisionType (bodies w (Rigid.bodyA w)) <> Passive)
    (HB : collisionType (bodies w (Rigid.bodyB w)) <> Passive)
    (Hrv : Rigid.rvNormal w <= 0)
    (HnF : collisionType (bodies w (Rigid.bodyA w)) <> Fixed
           \/ collisionType (bodies w (Rigid.bodyB w)) <> Fixed)
    (HmA : 0 < mass (colliders w (collider (bodies w (Rigid.bodyA w)))))
    (HmB : 0 < mass (colliders w (collider (bodies w (Rigid.bodyB w)))))
    (HiA : 0 < moi (colliders w (collider (bodies w (Rigid.bodyA w)))))
    (HiB : 0 < moi (colliders w (collider (bodies w (Rigid.bodyB w)))))
    (HeA : 0 <= restitution (colliders w (collider (bodies w (Rigid.bodyA w)))))
    (HeB : 0 <= restitution (colliders w (collider (bodies w (Rigid.bodyB w))))) :
  0 <= Rigid.impulse w
  /\ exists w',
       resolve CollisionResolutionStrategy.RigidBody w = Returned w'
       /\ Vec.dot (vel (bodies w (Rigid.bodyB w))) (Rigid.normal w)
          <= Vec.dot (vel (bodies w' (Rigid.bodyB w))) (Rigid.normal w)
       /\ Vec.dot (vel (bodies w' (Rigid.bodyA w))) (Rigid.normal w)
          <= Vec.dot (vel (bodies w (Rigid.bodyA w))) (Rigid.normal w).
Proof.
  destruct (effectiveInverseMass_pos w HmA HmB HiA HiB HnF) as (H1 & H2 & HD).
  assert (He : 0 <= Rigid.coefRestitution w)
    by (unfold Rigid.coefRestitution; apply Rmin_nonneg; assumption).
  assert (HJ : 0 <= Rigid.impulse w).
  { rewrite impulse_as_quotient. unfold Rdiv.
    apply Rle_mult_inv_pos; [nra | exact HD]. }
  split; [exact HJ |].
  exists (_resolveRigidBodyCollision w). split; [reflexivity |].
  rewrite rigid_applies by assumption. cbn [bodies].
  destruct (vel_along_normal w Hne) as [HvB HvA]. rewrite HvB, HvA.
  split; nra.
Qed.

Lemma rigid_impulse_pushes_apart_witness :
  0 <= Rigid.impulse (Sample.pair Active Active Vec.Zero (mkVector (-1) 1) 1).
Proof.
  apply (rigid_impulse_pushes_apart
           (Sample.pair Active Active Vec.Zero (mkVector (-1) 1) 1)).
  - simpl. discriminate.
  - simpl. discriminate.
  - simpl. discriminate.
  - rewrite Sample_rvNormal. simpl. lra.
  - left. simpl. discriminate.
  - simpl. lra.
  - simpl. lra.
  - simpl. lra.
  - simpl. lra.
  - simpl. lra.
  - simpl. lra.
Defined.

(** X15: in a resolution that applies the impulse, with the divisors of
    the data model and a pair that is not two Fixed bodies (so that the
    denominators are positive), the friction impulse is across the normal:
    along the unit normal the velocity of body B changes by exactly
    impulse * invMassB and the velocity of body A by exactly
    - impulse * invMassA, whether or not the friction step is taken. *)
Theorem rigid_friction_is_tangential (w : World)
    (Hne : Rigid.bodyA w <> Rigid.bodyB w)
    (HA : collisionType (bodies w (Rigid.bodyA w)) <> Passive)
    (HB : collisionType (bodies w (Rigid.bodyB w)) <> Passive)
    (Hrv : Rigid.rvNormal w <= 0)
    (HnF : collisionType (bodies w (Rigid.bodyA w)) <> Fixed
           \/ collisionType (bodies w (Rigid.bodyB w)) <> Fixed)
    (Hdiv : divisorsPositive w) :
  0 < effectiveInverseMass w
  /\ 0 < frictionInverseMass w
  /\ (frictionStep w = true ->
      Vec.dot (Rigid.frictionImpulse w) (Rigid.normal w) = 0)
  /\ exists w',
       resolve CollisionResolutionStrategy.RigidBody w = Returned w'
       /\ Vec.dot (vel (bodies w' (Rigid.bodyB w))) (Rigid.normal w)
          = Vec.dot (vel (bodies w (Rigid.bodyB w))) (Rigid.normal w)
            + Rigid.impulse w * Rigid.invMassB w
       /\ Vec.dot (vel (bodies w' (Rigid.bodyA w))) (Rigid.normal w)
          = Vec.dot (vel (bodies w (Rigid.bodyA w))) (Rigid.normal w)
            - Rigid.impulse w * Rigid.invMassA w.
Proof.
  destruct (denominators_positive w Hdiv HnF) as [HD HDt].
  split; [exact HD |]. split; [exact HDt |]. split.
  - unfold frictionStep. rewrite andb_true_iff. intros [_ E].
    apply frictionImpulse_across_normal. now apply truthy_true.
  - exists (_resolveRigidBodyCollision w). split; [reflexivity |].
    rewrite rigid_applies by assumption. cbn [bodies].
    now apply vel_along_normal.
Qed.

Lemma rigid_friction_is_tangential_witness :
  exists w',
    resolve CollisionResolutionStrategy.RigidBody
      (Sample.pair Active Active Vec.Zero (mkVector (-1) 1) 1) = Returned w'
    /\ Vec.dot (vel (bodies w' 1%nat))
               (Rigid.normal (Sample.pair Active Active Vec.Zero (mkVector (-1) 1) 1))
       = Vec.dot (mkVector (-1) 1)
                 (Rigid.normal (Sample.pair Active Active Vec.Zero (mkVector (-1) 1) 1))
         + Rigid.impulse (Sample.pair Active Active Vec.Zero (mkVector (-1) 1) 1)
           * Rigid.invMassB (Sample.pair Active Active Vec.Zero (mkVector (-1) 1) 1).
Proof.
  destruct (rigid_friction_is_tangential
              (Sample.pair Active Active Vec.Zero (mkVector (-1) 1) 1))
    as (_ & _ & _ & w' & Hr & HvB & _).
  - simpl. discriminate.
  - simpl. discriminate.
  - simpl. discriminate.
  - rewrite Sample_rvNormal. simpl. lra.
  - left. simpl. discriminate.
  - apply Sample_divisorsPositive.
  - exists w'. split; [exact Hr | exact HvB].
Defined.

(** ** RigidBody: the law of restitution *)

Lemma rvNormal_later (w w' : World) :
  this w' = this w -> colliders w' = colliders w ->
  Rigid.rvNormal w' = rvNormalIn w w'.
Proof.
  intros Ht Hc.
  unfold Rigid.rvNormal, rvNormalIn, Rigid.rv, Rigid.normal, Rigid.ra, Rigid.rb,
    Rigid.bodyA, Rigid.bodyB.
  now rewrite Ht, Hc.
Qed.

Lemma rx_applyNormalImpulse_on w0 w :
  Rigid.bodyA w0 <> Rigid.bodyB w0 ->
  collisionType (bodies w (Rigid.bodyA w0)) = collisionType (bodies w0 (Rigid.bodyA w0)) ->
  collisionType (bodies w (Rigid.bodyB w0)) = collisionType (bodies w0 (Rigid.bodyB w0)) ->
  allowRigidBodyRotation w = true ->
  rx (bodies (applyNormalImpulse w0 w) (Rigid.bodyB w0))
  = rx (bodies w (Rigid.bodyB w0))
    - Rigid.impulse w0 * Rigid.invMoiB w0 * - Vec.cross (Rigid.rb w0) (Rigid.normal w0)
  /\ rx (bodies (applyNormalImpulse w0 w) (Rigid.bodyA w0))
     = rx (bodies w (Rigid.bodyA w0))
       + Rigid.impulse w0 * Rigid.invMoiA w0 * - Vec.cross (Rigid.ra w0) (Rigid.normal w0).
Proof.
  intros Hne HA HB Hon.
  assert (Hab : Nat.eqb (Rigid.bodyA w0) (Rigid.bodyB w0) = false)
    by now apply Nat.eqb_neq.
  assert (Hba : Nat.eqb (Rigid.bodyB w0) (Rigid.bodyA w0) = false)
    by (apply Nat.eqb_neq; intros E; apply Hne; now symmetry).
  unfold applyNormalImpulse. cbv zeta.
  unfold Rigid.invMoiA, Rigid.invMoiB. rewrite <- HA, <- HB.
  unfold whenRotation.
  cbn [allowRigidBodyRotation vel_add vel_sub set_vel updBody]. rewrite Hon.
  destruct (CollisionType_eqb (collisionType (bodies w (Rigid.bodyA w0))) Fixed);
    [| destruct (CollisionType_eqb (collisionType (bodies w (Rigid.bodyB w0))) Fixed) ];
    split;
    unfold addMtv, vel_add, vel_sub, rx_add, rx_sub, set_vel, set_rx, updBody;
    simpl; rewrite ?Nat.eqb_refl, ?Hab, ?Hba; simpl;
    rewrite ?Nat.eqb_refl, ?Hab, ?Hba; simpl; try reflexivity; ring.
Qed.

(** The change of the relative velocity along the normal that the normal
    impulse brings about, angular part included. *)
Lemma restitution_algebra (vA vB ra rb n : Vector) (oA oB J imA imB iiA iiB : R) :
  Vec.dot
    (Vec.sub
       (Vec.add (Vec.add vB (Vec.scale n (J * imB)))
                (Vec.crossS rb (- (oB - J * iiB * - Vec.cross rb n))))
       (Vec.sub (Vec.sub vA (Vec.scale n (J * imA)))
                (Vec.crossS ra (oA + J * iiA * - Vec.cross ra n))))
    n
  = Vec.dot (Vec.sub (Vec.add vB (Vec.crossS rb (- oB)))
                     (Vec.sub vA (Vec.crossS ra oA))) n
    + J * ((imA + imB) * Vec.dot n n
           + iiA * Vec.dot ra (Vec.perpendicular n) * Vec.dot ra (Vec.perpendicular n)
           + iiB * Vec.dot rb (Vec.perpendicular n) * Vec.dot rb (Vec.perpendicular n)).
Proof.
  destruct vA, vB, ra, rb, n. unfold Vec.dot, Vec.cross. simpl. ring.
Qed.

Lemma impulse_times_denominator (w : World) :
  effectiveInverseMass w <> 0 ->
  Rigid.impulse w * effectiveInverseMass w
  = - ((1 + Rigid.coefRestitution w) * Rigid.rvNormal w).
Proof. intros HD. rewrite impulse_as_quotient. field. exact HD. Qed.

Lemma rvNormal_reversed (w : World) :
  Rigid.bodyA w <> Rigid.bodyB w ->
  collisionType (bodies w (Rigid.bodyA w)) <> Passive ->
  collisionType (bodies w (Rigid.bodyB w)) <> Passive ->
  Rigid.rvNormal w <= 0 ->
  allowRigidBodyRotation w = true ->
  frictionStep w = false ->
  effectiveInverseMass w <> 0 ->
  Rigid.rvNormal (_resolveRigidBodyCollision w)
  = - Rigid.coefRestitution w * Rigid.rvNormal w.
Proof.
  intros Hne HA HB Hrv Hon Hnf HD.
  rewrite rigid_applies by assumption.
  rewrite (rvNormal_later w)
    by (cbn [this colliders]; auto using this_afterImpulses, colliders_afterImpulses).
  unfold rvNormalIn. cbn [bodies].
  unfold afterImpulses. cbv zeta. rewrite Hnf.
  destruct (vel_applyNormalImpulse w (afterPreEvents w) Hne eq_refl eq_refl)
    as [HvB HvA].
  destruct (rx_applyNormalImpulse_on w (afterPreEvents w) Hne eq_refl eq_refl Hon)
    as [HoB HoA].
  rewrite HvB, HvA, HoB, HoA. cbn [afterPreEvents bodies].
  rewrite restitution_algebra, normal_unit.
  fold (Rigid.rv w). fold (Rigid.rvNormal w).
  rewrite <- tangent_is_perpendicular.
  fold (Rigid.raTangent w). fold (Rigid.rbTangent w).
  pose proof (impulse_times_denominator w HD) as HJ.
  unfold effectiveInverseMass in HJ.
  replace (Rigid.impulse w *
           ((Rigid.invMassA w + Rigid.invMassB w) * 1 +
            Rigid.invMoiA w * Rigid.raTangent w * Rigid.raTangent w +
            Rigid.invMoiB w * Rigid.rbTangent w * Rigid.rbTangent w))
    with (- ((1 + Rigid.coefRestitution w) * Rigid.rvNormal w))
    by (rewrite <- HJ; ring).
  ring.
Qed.

(** X16: with rotation switched on and no friction step, a resolution
    that applies the impulse obeys the law of restitution: read from the
    state it leaves, the relative velocity of the contact point along the
    normal is the one it found, reversed and scaled by the combined
    restitution.  The denominator of the impulse must not be zero. *)
Theorem rigid_restitution_law (w : World)
    (Hne : Rigid.bodyA w <> Rigid.bodyB w)
    (HA : collisionType (bodies w (Rigid.bodyA w)) <> Passive)
    (HB : collisionType (bodies w (Rigid.bodyB w)) <> Passive)
    (Hrv : Rigid.rvNormal w <= 0)
    (Hon : allowRigidBodyRotation w = true)
    (Hnf : frictionStep w = false)
    (HD : effectiveInverseMass w <> 0) :
  exists w',
    resolve CollisionResolutionStrategy.RigidBody w = Returned w'
    /\ Rigid.rvNormal w' = - Rigid.coefRestitution w * Rigid.rvNormal w.
Proof.
  exists (_resolveRigidBodyCollision w). split; [reflexivity |].
  now apply rvNormal_reversed.
Qed.

Lemma Sample_spinning_rvNormal ctA ctB vA vB fr :
  Rigid.rvNormal (Sample.spinningPair ctA ctB vA vB fr) = x vB - x vA.
Proof. rewrite <- (Sample_rvNormal ctA ctB vA vB fr). reflexivity. Qed.

Lemma Sample_spinning_no_friction ctA ctB vA vB :
  frictionStep (Sample.spinningPair ctA ctB vA vB 0) = false.
Proof.
  unfold frictionStep.
  replace (Rigid.coefFriction (Sample.spinningPair ctA ctB vA vB 0)) with 0
    by (symmetry; apply (Sample_coefFriction ctA ctB vA vB 0)).
  replace (truthy 0) with false by (symmetry; now apply truthy_false).
  reflexivity.
Qed.

Lemma Sample_spinning_denominator vA vB :
  effectiveInverseMass (Sample.spinningPair Active Active vA vB 0) <> 0.
Proof.
  assert (H : 0 < effectiveInverseMass (Sample.spinningPair Active Active vA vB 0)).
  { apply effectiveInverseMass_pos; simpl; try lra. left. discriminate. }
  lra.
Qed.

Lemma rigid_restitution_law_witness :
  exists w',
    resolve CollisionResolutionStrategy.RigidBody
      (Sample.spinningPair Active Active Vec.Zero (mkVector (-1) 0) 0) = Returned w'
    /\ Rigid.rvNormal w'
       = - Rigid.coefRestitution
             (Sample.spinningPair Active Active Vec.Zero (mkVector (-1) 0) 0)
         * Rigid.rvNormal
             (Sample.spinningPair Active Active Vec.Zero (mkVector (-1) 0) 0).
Proof.
  apply (rigid_restitution_law
           (Sample.spinningPair Active Active Vec.Zero (mkVector (-1) 0) 0)).
  - simpl. discriminate.
  - simpl. discriminate.
  - simpl. discriminate.
  - rewrite Sample_spinning_rvNormal. simpl. lra.
  - reflexivity.
  - apply Sample_spinning_no_friction.
  - apply Sample_spinning_denominator.
Defined.

(** ** RigidBody: resolving the same contact again *)

Lemma colliders_resolveRigidBodyCollision :
  keeps colliders _resolveRigidBodyCollision.
Proof.
  intros w. rewrite rigid_cases.
  destruct (Nat.eqb _ _); [reflexivity |].
  destruct (impulseApplied w); cbn [colliders afterPreEvents];
    [apply colliders_afterImpulses | reflexivity].
Qed.

Lemma Sample_elastic_rvNormal vA vB :
  Rigid.rvNormal (Sample.elasticPair vA vB) = x vB - x vA.
Proof. rewrite <- (Sample_rvNormal Active Active vA vB 0). reflexivity. Qed.

Lemma Sample_elastic_restitution vA vB :
  Rigid.coefRestitution (Sample.elasticPair vA vB) = 1.
Proof. unfold Rigid.coefRestitution. simpl. apply Rmin_left. lra. Qed.

Lemma Sample_elastic_no_friction vA vB :
  frictionStep (Sample.elasticPair vA vB) = false.
Proof.
  unfold frictionStep.
  replace (Rigid.coefFriction (Sample.elasticPair vA vB)) with 0
    by (unfold Rigid.coefFriction; simpl; symmetry; apply Rmin_left; lra).
  replace (truthy 0) with false by (symmetry; now apply truthy_false).
  reflexivity.
Qed.

Lemma Sample_elastic_denominator vA vB :
  effectiveInverseMass (Sample.elasticPair vA vB) <> 0.
Proof.
  assert (H : 0 < effectiveInverseMass (Sample.elasticPair vA vB)).
  { apply effectiveInverseMass_pos; simpl; try lra. left. discriminate. }
  lra.
Qed.

(** X17: a contact that has bounced is stale.  After a resolution, with
    rotation switched on, no friction step and a nonzero denominator, of
    an approaching pair (relative velocity along the normal strictly
    negative) with a combined restitution that is strictly positive, the
    pair is separating, and resolving the same contact again changes no
    body: the impulse is not applied a second time. *)
Theorem rigid_bounced_contact_is_stale (w : World)
    (Hne : Rigid.bodyA w <> Rigid.bodyB w)
    (HA : collisionType (bodies w (Rigid.bodyA w)) <> Passive)
    (HB : collisionType (bodies w (Rigid.bodyB w)) <> Passive)
    (Hrv : Rigid.rvNormal w < 0)
    (He : 0 < Rigid.coefRestitution w)
    (Hon : allowRigidBodyRotation w = true)
    (Hnf : frictionStep w = false)
    (HD : effectiveInverseMass w <> 0) :
  exists w' w'',
    resolve CollisionResolutionStrategy.RigidBody w = Returned w'
    /\ Rigid.rvNormal w' > 0
    /\ resolve CollisionResolutionStrategy.RigidBody w' = Returned w''
    /\ sameBodies w' w''.
Proof.
  exists (_resolveRigidBodyCollision w),
         (_resolveRigidBodyCollision (_resolveRigidBodyCollision w)).
  pose proof (rvNormal_reversed w Hne HA HB (Rlt_le _ _ Hrv) Hon Hnf HD) as Hlaw.
  assert (Hsep : Rigid.rvNormal (_resolveRigidBodyCollision w) > 0)
    by (rewrite Hlaw; nra).
  split; [reflexivity |]. split; [exact Hsep |]. split; [reflexivity |].
  assert (Hne' : Rigid.bodyA (_resolveRigidBodyCollision w)
                 <> Rigid.bodyB (_resolveRigidBodyCollision w)).
  { unfold Rigid.bodyA, Rigid.bodyB.
    now rewrite colliders_resolveRigidBodyCollision, this_resolveRigidBodyCollision. }
  rewrite (rigid_separating_returns (_resolveRigidBodyCollision w)) by assumption.
  intros r. reflexivity.
Qed.

Lemma rigid_bounced_contact_is_stale_witness :
  exists w' w'',
    resolve CollisionResolutionStrategy.RigidBody
      (Sample.elasticPair Vec.Zero (mkVector (-1) 0)) = Returned w'
    /\ Rigid.rvNormal w' > 0
    /\ resolve CollisionResolutionStrategy.RigidBody w' = Returned w''
    /\ sameBodies w' w''.
Proof.
  apply (rigid_bounced_contact_is_stale
           (Sample.elasticPair Vec.Zero (mkVector (-1) 0))).
  - simpl. discriminate.
  - simpl. discriminate.
  - simpl. discriminate.
  - rewrite Sample_elastic_rvNormal. simpl. lra.
  - rewrite Sample_elastic_restitution. lra.
  - reflexivity.
  - apply Sample_elastic_no_friction.
  - apply Sample_elastic_denominator.
Defined.

(** ** RigidBody: the correction, whatever the classes *)

Lemma totalMtv_afterImpulses (w : World) (r : BodyRef) :
  totalMtv (bodies (afterImpulses w) r)
  = totalMtv (bodies (applyNormalImpulse w (afterPreEvents w)) r).
Proof.
  unfold afterImpulses. cbv zeta. destruct (frictionStep w);
    rewrite ?totalMtv_applyFrictionImpulse; reflexivity.
Qed.

(** X18: whenever a RigidBody resolution applies the impulse, the
    accumulated correction of body B relative to that of body A grows by
    exactly the MTV: split in halves between two bodies that are not
    Fixed, given whole to the one that is not Fixed, and given whole to
    body B when both are Fixed. *)
Theorem rigid_relative_correction (w : World)
    (Hne : Rigid.bodyA w <> Rigid.bodyB w)
    (HA : collisionType (bodies w (Rigid.bodyA w)) <> Passive)
    (HB : collisionType (bodies w (Rigid.bodyB w)) <> Passive)
    (Hrv : Rigid.rvNormal w <= 0) :
  exists w',
    resolve CollisionResolutionStrategy.RigidBody w = Returned w'
    /\ Vec.sub (totalMtv (bodies w' (Rigid.bodyB w)))
               (totalMtv (bodies w' (Rigid.bodyA w)))
       = Vec.add (Vec.sub (totalMtv (bodies w (Rigid.bodyB w)))
                          (totalMtv (bodies w (Rigid.bodyA w))))
                 (mtv (this w)).
Proof.
  exists (_resolveRigidBodyCollision w). split; [reflexivity |].
  rewrite rigid_applies by assumption. cbn [bodies].
  rewrite !totalMtv_afterImpulses.
  destruct (CollisionType_eqb (collisionType (bodies w (Rigid.bodyA w))) Fixed) eqn:EA;
    [| destruct (CollisionType_eqb (collisionType (bodies w (Rigid.bodyB w))) Fixed) eqn:EB ].
  - apply CollisionType_eqb_eq in EA.
    destruct (applyNormalImpulse_fixedA w (afterPreEvents w) Hne EA) as [H1 H2].
    rewrite H1, H2. cbn [afterPreEvents bodies].
    apply Vector_eq; simpl; lra.
  - apply CollisionType_eqb_eq in EB.
    assert (EA' : collisionType (bodies w (Rigid.bodyA w)) <> Fixed)
      by (intros E; rewrite E in EA; discriminate).
    destruct (applyNormalImpulse_fixedB w (afterPreEvents w) Hne EA' EB) as [H1 H2].
    rewrite H1, H2. cbn [afterPreEvents bodies].
    apply Vector_eq; simpl; lra.
  - assert (EA' : collisionType (bodies w (Rigid.bodyA w)) <> Fixed)
      by (intros E; rewrite E in EA; discriminate).
    assert (EB' : collisionType (bodies w (Rigid.bodyB w)) <> Fixed)
      by (intros E; rewrite E in EB; discriminate).
    destruct (applyNormalImpulse_neither w (afterPreEvents w) Hne EA' EB') as [H1 H2].
    rewrite H1, H2. cbn [afterPreEvents bodies].
    apply Vector_eq; simpl; lra.
Qed.

Lemma rigid_relative_correction_witness :
  exists w',
    resolve CollisionResolutionStrategy.RigidBody
      (Sample.pair Active Fixed Vec.Zero (mkVector (-1) 0) 0) = Returned w'
    /\ Vec.sub (totalMtv (bodies w' 1%nat)) (totalMtv (bodies w' 0%nat))
       = Vec.add (Vec.sub Vec.Zero Vec.Zero) (mkVector 2 0).
Proof.
  apply (rigid_relative_correction
           (Sample.pair Active Fixed Vec.Zero (mkVector (-1) 0) 0)).
  - simpl. discriminate.
  - simpl. discriminate.
  - simpl. discriminate.
  - rewrite Sample_rvNormal. simpl. lra.
Defined.

(** ** [resolve]: what no strategy writes *)

Lemma rotation_resolveBoxCollision : keeps allowRigidBodyRotation _resolveBoxCollision.
Proof.
  intros w. rewrite box_unfold. now rewrite !rotation_applyBoxImpulse.
Qed.

Lemma rotation_resolveRigidBodyCollision :
  keeps allowRigidBodyRotation _resolveRigidBodyCollision.
Proof.
  intros w. rewrite rigid_cases.
  destruct (Nat.eqb _ _); [reflexivity |].
  destruct (impulseApplied w); cbn [allowRigidBodyRotation afterPreEvents];
    [apply rotation_afterImpulses | reflexivity].
Qed.

(** X19: whatever the strategy, an unknown one included, [resolve] writes
    no collider (mass, moment of inertia, restitution, friction, centre and
    body are read only) and does not touch the rotation switch of
    [Physics]; and no body changes its kinematic class. *)
Theorem resolve_reads_colliders_and_config
    (s : CollisionResolutionStrategy.t) (w : World) :
  colliders (finalWorld (resolve s w)) = colliders w
  /\ allowRigidBodyRotation (finalWorld (resolve s w)) = allowRigidBodyRotation w
  /\ forall r, collisionType (bodies (finalWorld (resolve s w)) r)
               = collisionType (bodies w r).
Proof.
  unfold resolve. split_ifs; cbn [finalWorld].
  - split; [apply colliders_resolveRigidBodyCollision |].
    split; [apply rotation_resolveRigidBodyCollision |].
    intros r. rewrite bodies_rigid. destruct (impulseApplied w);
      [apply collisionType_afterImpulses | reflexivity].
  - split; [apply colliders_resolveBoxCollision |].
    split; [apply rotation_resolveBoxCollision |].
    intros r. apply collisionType_resolveBoxCollision.
  - repeat split.
Qed.

(** ** RigidBody: a resting contact *)

Lemma impulse_of_resting (w : World) :
  Rigid.rvNormal w = 0 -> Rigid.impulse w = 0.
Proof.
  intros H0. rewrite impulse_as_quotient, H0. unfold Rdiv. ring.
Qed.

Lemma frictionImpulse_of_resting (w : World) :
  Rigid.rvNormal w = 0 -> Rigid.frictionImpulse w = Vec.Zero.
Proof.
  intros H0. pose proof (impulse_of_resting w H0) as HJ.
  unfold Rigid.frictionImpulse. rewrite HJ.
  destruct (Rleb (Rabs (Rigid.jt w)) (0 * Rigid.coefFriction w)) eqn:E.
  - apply Rleb_true in E. rewrite Rmult_0_l in E.
    pose proof (Rabs_pos (Rigid.jt w)) as Hp.
    assert (Hj : Rigid.jt w = 0).
    { destruct (Req_dec (Rigid.jt w) 0) as [Hz | Hz]; [exact Hz |].
      pose proof (Rabs_pos_lt _ Hz). lra. }
    rewrite Hj. apply Vector_eq; simpl; ring.
  - apply Vector_eq; simpl; ring.
Qed.

(** X20: a contact at rest along the normal (relative velocity along the
    normal exactly zero) does not take the early return of line 149: the
    post-collision events are emitted and the correction is accumulated,
    but no velocity changes, because the normal impulse is zero and the
    friction impulse is clamped by it to zero.  The denominator of the
    impulse must not be zero. *)
Theorem rigid_resting_contact (w : World)
    (Hne : Rigid.bodyA w <> Rigid.bodyB w)
    (HA : collisionType (bodies w (Rigid.bodyA w)) <> Passive)
    (HB : collisionType (bodies w (Rigid.bodyB w)) <> Passive)
    (Hrest : Rigid.rvNormal w = 0)
    (HD : effectiveInverseMass w <> 0) :
  Rigid.impulse w = 0
  /\ Rigid.frictionImpulse w = Vec.Zero
  /\ exists w',
       resolve CollisionResolutionStrategy.RigidBody w = Returned w'
       /\ vel (bodies w' (Rigid.bodyA w)) = vel (bodies w (Rigid.bodyA w))
       /\ vel (bodies w' (Rigid.bodyB w)) = vel (bodies w (Rigid.bodyB w))
       /\ emittedSince w w' (rigidPreEvents w ++ rigidPostEvents w).
Proof.
  pose proof (impulse_of_resting w Hrest) as HJ.
  pose proof (frictionImpulse_of_resting w Hrest) as HF.
  split; [exact HJ |]. split; [exact HF |].
  exists (_resolveRigidBodyCollision w). split; [reflexivity |].
  assert (Hrv : Rigid.rvNormal w <= 0) by lra.
  rewrite rigid_applies by assumption. cbn [bodies emitted].
  destruct (vel_afterImpulses w Hne) as [HvB HvA]. rewrite HvB, HvA.
  cbv zeta. rewrite HJ, HF.
  split; [| split].
  - destruct (frictionStep w); apply Vector_eq; simpl; ring.
  - destruct (frictionStep w); apply Vector_eq; simpl; ring.
  - unfold emittedSince. now rewrite emitted_afterImpulses, app_assoc.
Qed.

Lemma rigid_resting_contact_witness :
  exists w',
    resolve CollisionResolutionStrategy.RigidBody
      (Sample.spinningPair Active Active Vec.Zero (mkVector 0 1) 0) = Returned w'
    /\ vel (bodies w' 1%nat) = mkVector 0 1.
Proof.
  destruct (rigid_resting_contact
              (Sample.spinningPair Active Active Vec.Zero (mkVector 0 1) 0))
    as (_ & _ & w' & Hr & _ & HvB & _).
  - simpl. discriminate.
  - simpl. discriminate.
  - simpl. discriminate.
  - rewrite Sample_spinning_rvNormal. simpl. lra.
  - apply Sample_spinning_denominator.
  - exists w'. split; [exact Hr | exact HvB].
Defined.
